(** * bucketsync: the node / extent persistence layer (lib/filesystem.go)

    A shallow embedding of [Directory.Save], [File.Save], [SymLink.Save],
    [Extent.CurrentKey] and [Extent.Fill].  The remote bucket is explicit
    state; the goroutines of [File.Save] are tasks with a program counter,
    interleaved by a schedule. *)

From Stdlib Require Import ZArith Lia DecimalString DecimalPos DecimalZ.
From stdpp Require Import gmap strings list fin_maps sorting.

Open Scope Z_scope.

(** ** Bytes, keys and errors *)

(** ObjectKey is declared outside lib/filesystem.go; keys are used there only
    as opaque names of remote objects, and are taken as strings. *)
Abbreviation ObjectKey := string (only parsing).

Abbreviation bytes := (list Byte.byte).

(** Go's [error] values: those coming back from the store client are opaque;
    [ErrMarshal] is an error of json.Marshal. *)
Inductive error : Type :=
  | ErrNotFound (k : ObjectKey)
  | ErrStore (msg : string)
  | ErrMarshal (msg : string).

(** A Go [error] result: [None] is [nil]. *)
Abbreviation go_error := (option error).

(** ** Strings in JSON text

    encoding/json writes a string rune by rune: a byte that does not start a
    well-formed UTF-8 sequence (utf8.DecodeRuneInString answers RuneError
    with size 1) is written as U+FFFD, and the decoder does the same to the
    strings it reads.  A string comes back as it was only if it is valid
    UTF-8. *)

Definition in_range (lo hi : N) (b : Byte.byte) : bool :=
  (lo <=? Byte.to_N b)%N && (Byte.to_N b <=? hi)%N.

Definition continuation (b : Byte.byte) : bool := in_range 0x80 0xBF b.

(** The length of the well-formed sequence at the head of [bs]; [None] is
    RuneError with size 1. *)
Definition rune_size (bs : bytes) : option nat :=
  match bs with
  | [] => None
  | b0 :: rest =>
      if in_range 0x00 0x7F b0 then Some 1%nat
      else if in_range 0xC2 0xDF b0 then
        match rest with
        | b1 :: _ => if continuation b1 then Some 2%nat else None
        | _ => None
        end
      else if in_range 0xE0 0xEF b0 then
        match rest with
        | b1 :: b2 :: _ =>
            if in_range (if in_range 0xE0 0xE0 b0 then 0xA0 else 0x80)
                        (if in_range 0xED 0xED b0 then 0x9F else 0xBF) b1
               && continuation b2
            then Some 3%nat else None
        | _ => None
        end
      else if in_range 0xF0 0xF4 b0 then
        match rest with
        | b1 :: b2 :: b3 :: _ =>
            if in_range (if in_range 0xF0 0xF0 b0 then 0x90 else 0x80)
                        (if in_range 0xF4 0xF4 b0 then 0x8F else 0xBF) b1
               && continuation b2 && continuation b3
            then Some 4%nat else None
        | _ => None
        end
      else None
  end.

(** U+FFFD in UTF-8. *)
Definition replacement_char : bytes := [Byte.xef; Byte.xbf; Byte.xbd].

Fixpoint utf8_coerce_bytes (fuel : nat) (bs : bytes) : bytes :=
  match fuel, bs with
  | S fuel', _ :: rest =>
      match rune_size bs with
      | Some n => take n bs ++ utf8_coerce_bytes fuel' (drop n bs)
      | None => replacement_char ++ utf8_coerce_bytes fuel' rest
      end
  | _, _ => []
  end.

(** The string as encoding/json writes it and reads it back. *)
Definition utf8_coerce (s : string) : string :=
  String.string_of_list_byte
    (utf8_coerce_bytes (length (String.list_byte_of_string s))
       (String.list_byte_of_string s)).

Fixpoint utf8_valid_bytes (fuel : nat) (bs : bytes) : bool :=
  match bs with
  | [] => true
  | _ :: _ =>
      match fuel with
      | S fuel' =>
          match rune_size bs with
          | Some n => utf8_valid_bytes fuel' (drop n bs)
          | None => false
          end
      | O => false
      end
  end.

(** utf8.ValidString. *)
Definition utf8_valid (s : string) : bool :=
  utf8_valid_bytes (length (String.list_byte_of_string s)) (String.list_byte_of_string s).

Global Arguments utf8_coerce : simpl never.
Global Arguments utf8_valid : simpl never.

(** ** JSON documents

    encoding/json turns a struct into text and back.  A document is kept as
    its value tree, with the strings as they stand in the text; [json_text]
    prints the tree. *)

#[warnings="-register-all"]
Inductive JSON : Type :=
  | JNum (z : Z)
  | JStr (s : string)
  | JObj (fields : list (string * JSON)).

(** strconv-style decimal text of an integer (the form of an int64 map key
    in a JSON object) and its parser. *)
Definition itoa (z : Z) : string := NilZero.string_of_int (Z.to_int z).

Definition atoi (s : string) : option Z :=
  match NilZero.int_of_string s with
  | Some d => Some (Z.of_int d)
  | None => None
  end.

Definition quoted (s : string) : string :=
  String (Ascii.ascii_of_nat 34) (s +:+ String (Ascii.ascii_of_nat 34) EmptyString).

Fixpoint json_string (j : JSON) : string :=
  match j with
  | JNum z => itoa z
  | JStr s => quoted s
  | JObj fs =>
      let fix members (l : list (string * JSON)) : string :=
        match l with
        | [] => EmptyString
        | (k, v) :: l' =>
            quoted k +:+ ":" +:+ json_string v
            +:+ match l' with
                | [] => EmptyString
                | _ => "," +:+ members l'
                end
        end in
      "{" +:+ members fs +:+ "}"
  end.

Definition json_text (j : JSON) : bytes := String.list_byte_of_string (json_string j).

(** ** The remote bucket and the store client *)

(** What is stored under a key: the raw bytes of an extent body, or the JSON
    record of a node. *)
Inductive Object : Type :=
  | Raw (b : bytes)
  | Doc (j : JSON).

Definition object_bytes (o : Object) : bytes :=
  match o with
  | Raw b => b
  | Doc j => json_text j
  end.

(** The calls that reach the store client, in the order they were made. *)
Inductive Request : Type :=
  | CallUpload (k : ObjectKey)
  | CallUploadWithCache (k : ObjectKey)
  | CallDownload (k : ObjectKey)
  | CallIsExist (k : ObjectKey).

Global Instance Request_eq_dec : EqDecision Request.
Proof. solve_decision. Defined.

Record Bucket : Type := mkBucket {
  objects : gmap string Object;
  trace : list Request
}.

(** Session bundles the key generator and the store client.  The client's
    failures are given by oracles: [Some err] makes the call fail with
    [err].  An upload fails or not by its key; a download fails or not by
    its key and the calls made so far, so that a download may fail once and
    answer the next time. *)
Record Session : Type := mkSession {
  KeyGen : bytes → ObjectKey;
  upload_fault : ObjectKey → go_error;
  cache_upload_fault : ObjectKey → go_error;
  download_fault : list Request → ObjectKey → go_error
}.

Definition called (r : Request) (b : Bucket) : Bucket :=
  mkBucket (objects b) (trace b ++ [r]).

(** Modelled from the spec: the store client's Upload is not in
    lib/filesystem.go.  It durably stores the content at the key, or fails. *)
Definition Upload (sess : Session) (k : ObjectKey) (o : Object) (b : Bucket)
  : go_error * Bucket :=
  let b := called (CallUpload k) b in
  match upload_fault sess k with
  | Some err => (Some err, b)
  | None => (None, mkBucket (<[k:=o]> (objects b)) (trace b))
  end.

(** Modelled from the spec: the store client's UploadWithCache is not in
    lib/filesystem.go.  It stores the content at the key unless an object is
    already present under that key, in which case it is a successful no-op. *)
Definition UploadWithCache (sess : Session) (k : ObjectKey) (o : Object) (b : Bucket)
  : go_error * Bucket :=
  let b := called (CallUploadWithCache k) b in
  match objects b !! k with
  | Some _ => (None, b)
  | None =>
      match cache_upload_fault sess k with
      | Some err => (Some err, b)
      | None => (None, mkBucket (<[k:=o]> (objects b)) (trace b))
      end
  end.

(** Modelled from the spec: the store client's Download is not in
    lib/filesystem.go.  It returns the content previously stored at the key,
    and an error if the key is absent or the call fails. *)
Definition Download (sess : Session) (k : ObjectKey) (b : Bucket)
  : (error + Object) * Bucket :=
  let b' := called (CallDownload k) b in
  match download_fault sess (trace b) k with
  | Some err => (inl err, b')
  | None =>
      match objects b !! k with
      | Some o => (inr o, b')
      | None => (inl (ErrNotFound k), b')
      end
  end.

(** Modelled from the spec: the store client's IsExist is not in
    lib/filesystem.go.  It is a presence check for the key. *)
Definition IsExist (k : ObjectKey) (b : Bucket) : bool * Bucket :=
  let b := called (CallIsExist k) b in
  (bool_decide (is_Some (objects b !! k)), b).

(** Number of calls of one kind in a trace. *)
Definition count_calls (r : Request) (t : list Request) : nat :=
  length (filter (λ x, x = r) t).

(** ** Extent *)

Record Extent : Type := mkExtent {
  ext_Key : ObjectKey;
  ext_body : bytes;
  ext_dirty : bool
}.

Definition CurrentKey (sess : Session) (e : Extent) : ObjectKey :=
  KeyGen sess (ext_body e).

Definition Fill (sess : Session) (e : Extent) (b : Bucket)
  : go_error * Extent * Bucket :=
  if ext_dirty e || negb (length (ext_body e) =? 0)%nat then (None, e, b)
  else
    match Download sess (ext_Key e) b with
    | (inl err, b') => (Some err, e, b')
    | (inr o, b') => (None, mkExtent (ext_Key e) (object_bytes o) (ext_dirty e), b')
    end.

(** ** Meta and the three node kinds *)

(** A time.Time, as far as encoding/json sees it: the RFC 3339 text that
    Time.MarshalJSON writes for it (the wall clock and the zone offset; the
    monotonic clock reading and the Location are not written), or a time
    whose year is outside 0..9999, for which Time.MarshalJSON fails. *)
Inductive Time : Type :=
  | TimeText (rfc3339 : string)
  | TimeOutOfRange.

Record Meta : Type := mkMeta {
  Size : Z;
  Mode : Z;
  UID : Z;
  GID : Z;
  Atime : Time;
  Ctime : Time;
  Mtime : Time
}.

Record Directory : Type := mkDirectory {
  dir_Key : ObjectKey;
  dir_Meta : Meta;
  dir_FileMeta : gmap string string
}.

Record File : Type := mkFile {
  file_Key : ObjectKey;
  file_Meta : Meta;
  file_ExtentSize : Z;
  file_Extent : gmap Z Extent;
  file_dirty : bool
}.

Record SymLink : Type := mkSymLink {
  link_Key : ObjectKey;
  link_Meta : Meta;
  link_LinkTo : string
}.

(** ** json.Marshal on the tagged fields

    Only exported fields with a json tag are written: an Extent is written
    as its [Key] alone, [body], [dirty] and [sess] are not.  Strings are
    written through [utf8_coerce]; the entries of a map are written sorted
    by key; Marshal fails when a time cannot be written. *)

Definition time_json (t : Time) : error + string :=
  match t with
  | TimeText s => inr s
  | TimeOutOfRange =>
      inl (ErrMarshal "Time.MarshalJSON: year outside of range [0,9999]")
  end.

Definition marshal_Meta (m : Meta) : error + JSON :=
  match time_json (Atime m) with
  | inl err => inl err
  | inr atime =>
      match time_json (Ctime m) with
      | inl err => inl err
      | inr ctime =>
          match time_json (Mtime m) with
          | inl err => inl err
          | inr mtime =>
              inr (JObj [("size", JNum (Size m)); ("mode", JNum (Mode m));
                         ("uid", JNum (UID m)); ("gid", JNum (GID m));
                         ("atime", JStr atime); ("ctime", JStr ctime);
                         ("mtime", JStr mtime)]%string)
          end
      end
  end.

(** The order in which the entries of a map are written. *)
Definition key_le {A} (p q : string * A) : Prop := String.leb p.1 q.1 = true.

Global Instance key_le_dec {A} (p q : string * A) : Decision (key_le p q).
Proof. unfold key_le. apply _. Defined.

Definition sorted_members {A} (l : list (string * A)) : list (string * A) :=
  merge_sort key_le l.

Definition marshal_Directory (o : Directory) : error + JSON :=
  match marshal_Meta (dir_Meta o) with
  | inl err => inl err
  | inr meta =>
      inr (JObj [("key", JStr (utf8_coerce (dir_Key o))); ("meta", meta);
                 ("children",
                  JObj (map (λ p, (utf8_coerce p.1, JStr (utf8_coerce p.2)))
                            (sorted_members (map_to_list (dir_FileMeta o)))))]%string)
  end.

Definition marshal_Extent (e : Extent) : JSON :=
  JObj [("key", JStr (utf8_coerce (ext_Key e)))]%string.

Definition marshal_File (o : File) : error + JSON :=
  match marshal_Meta (file_Meta o) with
  | inl err => inl err
  | inr meta =>
      inr (JObj [("key", JStr (utf8_coerce (file_Key o))); ("meta", meta);
                 ("extent_size", JNum (file_ExtentSize o));
                 ("extent",
                  JObj (map (λ p, (p.1, marshal_Extent p.2))
                            (sorted_members
                               (map (λ p, (itoa p.1, p.2))
                                    (map_to_list (file_Extent o))))))]%string)
  end.

Definition marshal_SymLink (o : SymLink) : error + JSON :=
  match marshal_Meta (link_Meta o) with
  | inl err => inl err
  | inr meta =>
      inr (JObj [("key", JStr (utf8_coerce (link_Key o))); ("meta", meta);
                 ("linkto", JStr (utf8_coerce (link_LinkTo o)))]%string)
  end.

(** ** json.Unmarshal into the same structs

    A member that is absent leaves the zero value; a member of the wrong
    shape is a decode error; of two members with the same name the later
    one counts, in a struct and in a map. *)

Fixpoint member (name : string) (fs : list (string * JSON)) : option JSON :=
  match fs with
  | [] => None
  | (k, v) :: fs' =>
      match member name fs' with
      | Some v' => Some v'
      | None => if String.eqb k name then Some v else None
      end
  end.

Definition get_str (name : string) (fs : list (string * JSON)) : option string :=
  match member name fs with
  | None => Some EmptyString
  | Some (JStr s) => Some (utf8_coerce s)
  | Some _ => None
  end.

Definition get_num (name : string) (fs : list (string * JSON)) : option Z :=
  match member name fs with
  | None => Some 0
  | Some (JNum z) => Some z
  | Some _ => None
  end.

Definition get_obj (name : string) (fs : list (string * JSON))
  : option (list (string * JSON)) :=
  match member name fs with
  | None => Some []
  | Some (JObj l) => Some l
  | Some _ => None
  end.

(** The zero time.Time, for an absent member. *)
Definition get_time (name : string) (fs : list (string * JSON)) : option Time :=
  match member name fs with
  | None => Some (TimeText "0001-01-01T00:00:00Z")
  | Some (JStr s) => Some (TimeText s)
  | Some _ => None
  end.

Definition unmarshal_Meta (fs : list (string * JSON)) : option Meta :=
  size ← get_num "size" fs; mode ← get_num "mode" fs;
  uid ← get_num "uid" fs; gid ← get_num "gid" fs;
  atime ← get_time "atime" fs; ctime ← get_time "ctime" fs;
  mtime ← get_time "mtime" fs;
  Some (mkMeta size mode uid gid atime ctime mtime).

Definition unmarshal_child (p : string * JSON) : option (string * string) :=
  match p.2 with
  | JStr k => Some (utf8_coerce p.1, utf8_coerce k)
  | _ => None
  end.

Definition unmarshal_Directory (j : JSON) : option Directory :=
  match j with
  | JObj fs =>
      key ← get_str "key" fs;
      meta ← get_obj "meta" fs ≫= unmarshal_Meta;
      children ← get_obj "children" fs ≫= mapM unmarshal_child;
      Some (mkDirectory key meta (list_to_map (reverse children)))
  | _ => None
  end.

(** A decoded Extent has its key only: no body, not dirty. *)
Definition unmarshal_Extent (p : string * JSON) : option (Z * Extent) :=
  match p.2 with
  | JObj fs =>
      i ← atoi p.1;
      key ← get_str "key" fs;
      Some (i, mkExtent key [] false)
  | _ => None
  end.

Definition unmarshal_File (j : JSON) : option File :=
  match j with
  | JObj fs =>
      key ← get_str "key" fs;
      meta ← get_obj "meta" fs ≫= unmarshal_Meta;
      extent_size ← get_num "extent_size" fs;
      extent ← get_obj "extent" fs ≫= mapM unmarshal_Extent;
      Some (mkFile key meta extent_size (list_to_map (reverse extent)) false)
  | _ => None
  end.

Definition unmarshal_SymLink (j : JSON) : option SymLink :=
  match j with
  | JObj fs =>
      key ← get_str "key" fs;
      meta ← get_obj "meta" fs ≫= unmarshal_Meta;
      linkto ← get_str "linkto" fs;
      Some (mkSymLink key meta linkto)
  | _ => None
  end.

(** The strings of a node are valid UTF-8. *)
Definition valid_Directory (o : Directory) : Prop :=
  utf8_valid (dir_Key o) = true
  ∧ map_Forall (λ name key, utf8_valid name = true ∧ utf8_valid key = true)
      (dir_FileMeta o).

Definition valid_File (o : File) : Prop :=
  utf8_valid (file_Key o) = true
  ∧ map_Forall (λ _ e, utf8_valid (ext_Key e) = true) (file_Extent o).

Definition valid_SymLink (o : SymLink) : Prop :=
  utf8_valid (link_Key o) = true ∧ utf8_valid (link_LinkTo o) = true.

(** Loading a node: download the blob at the key; what comes back is decoded
    when it is a node record.  (The raw bytes of an extent body are not run
    through the decoder.) *)
Definition load_doc (sess : Session) (k : ObjectKey) (b : Bucket) : option JSON :=
  match Download sess k b with
  | (inr (Doc j), _) => Some j
  | _ => None
  end.

(** ** Directory.Save and SymLink.Save *)

Definition Directory_Save (sess : Session) (o : Directory) (b : Bucket)
  : go_error * Bucket :=
  match marshal_Directory o with
  | inl err => (Some err, b)
  | inr result => UploadWithCache sess (dir_Key o) (Doc result) b
  end.

Definition SymLink_Save (sess : Session) (o : SymLink) (b : Bucket)
  : go_error * Bucket :=
  match marshal_SymLink o with
  | inl err => (Some err, b)
  | inr result => UploadWithCache sess (link_Key o) (Doc result) b
  end.

(** ** File.Save

    Save starts one goroutine per entry of [o.Extent], a watcher that closes
    [done] once the WaitGroup is back to zero, and then blocks in [select].
    Each goroutine is a task with a program counter; a store call or a write
    to the extent is one step of its task. *)

Inductive pc : Type :=
  | PStart                    (* launched, nothing executed yet *)
  | PUpload (key : ObjectKey) (* dirty, IsExist(key) was false *)
  | PClear                    (* Upload returned nil *)
  | PSend (err : error)       (* Upload failed: blocked in errc <- err *)
  | PDone                     (* wg.Done() called, returned *)
  | PGone.                    (* err was received, returned without wg.Done() *)

Global Instance error_eq_dec : EqDecision error.
Proof. solve_decision. Defined.

Global Instance pc_eq_dec : EqDecision pc.
Proof. solve_decision. Defined.

(** A call of Save in progress.  [sv_file] is the receiver [o], whose extents
    the goroutines write to; [sv_result] is [None] while Save is blocked in
    [select] and [Some r] once it has returned [r]. *)
Record Saving : Type := mkSaving {
  sv_file : File;
  sv_tasks : gmap Z pc;
  sv_bucket : Bucket;
  sv_result : option go_error
}.

Definition set_extent (i : Z) (e : Extent) (o : File) : File :=
  mkFile (file_Key o) (file_Meta o) (file_ExtentSize o)
         (<[i:=e]> (file_Extent o)) (file_dirty o).

Definition set_task (i : Z) (p : pc) (b : Bucket) (c : Saving) : Saving :=
  mkSaving (sv_file c) (<[i:=p]> (sv_tasks c)) b (sv_result c).

(** One step of the goroutine started for the extent at index [i]. *)
Definition task_step (sess : Session) (i : Z) (c : Saving) : option Saving :=
  match sv_tasks c !! i, file_Extent (sv_file c) !! i with
  | Some PStart, Some e =>
      if negb (ext_dirty e) then Some (set_task i PDone (sv_bucket c) c)
      else
        let key := CurrentKey sess e in
        let '(present, b) := IsExist key (sv_bucket c) in
        if present then Some (set_task i PDone b c)
        else Some (set_task i (PUpload key) b c)
  | Some (PUpload key), Some e =>
      match Upload sess key (Raw (ext_body e)) (sv_bucket c) with
      | (Some err, b) => Some (set_task i (PSend err) b c)
      | (None, b) => Some (set_task i PClear b c)
      end
  | Some PClear, Some e =>
      Some (mkSaving (set_extent i (mkExtent (ext_Key e) (ext_body e) false) (sv_file c))
                     (<[i:=PDone]> (sv_tasks c)) (sv_bucket c) (sv_result c))
  | _, _ => None
  end.

(** [case err := <-errc: return err], receiving from the task of extent [i]. *)
Definition recv_step (i : Z) (c : Saving) : option Saving :=
  match sv_result c, sv_tasks c !! i with
  | None, Some (PSend err) =>
      Some (mkSaving (sv_file c) (<[i:=PGone]> (sv_tasks c)) (sv_bucket c)
                     (Some (Some err)))
  | _, _ => None
  end.

Definition all_done (c : Saving) : bool :=
  bool_decide (map_Forall (λ _ p, p = PDone) (sv_tasks c)).

(** [case <-done:] every task called wg.Done(); marshal [o], return the
    error of Marshal if there is one, and upload the record otherwise. *)
Definition done_step (sess : Session) (c : Saving) : option Saving :=
  match sv_result c with
  | None =>
      if all_done c then
        match marshal_File (sv_file c) with
        | inl err =>
            Some (mkSaving (sv_file c) (sv_tasks c) (sv_bucket c) (Some (Some err)))
        | inr result =>
            let '(err, b) := UploadWithCache sess (file_Key (sv_file c))
                               (Doc result) (sv_bucket c) in
            Some (mkSaving (sv_file c) (sv_tasks c) b (Some err))
        end
      else None
  | Some _ => None
  end.

Inductive Action : Type :=
  | Run (i : Z)    (* the task of extent i takes a step *)
  | Recv (i : Z)   (* Save receives the error the task of extent i is sending *)
  | Finish.        (* Save sees done closed *)

Definition step (sess : Session) (a : Action) (c : Saving) : option Saving :=
  match a with
  | Run i => task_step sess i c
  | Recv i => recv_step i c
  | Finish => done_step sess c
  end.

(** Save has just launched its goroutines. *)
Definition Save_begin (o : File) (b : Bucket) : Saving :=
  mkSaving o ((λ _, PStart) <$> file_Extent o) b None.

(** Run a schedule; an action that is not enabled is skipped. *)
Fixpoint run (sess : Session) (sched : list Action) (c : Saving) : Saving :=
  match sched with
  | [] => c
  | a :: sched' => run sess sched' (default c (step sess a c))
  end.

Definition File_Save (sess : Session) (sched : list Action) (o : File) (b : Bucket)
  : Saving :=
  run sess sched (Save_begin o b).

(** ** The steps of Save as a relation

    One constructor per way a goroutine or Save itself moves on; [step]
    computes exactly these (lemma [step_Step]). *)
Inductive Step (sess : Session) : Action → Saving → Saving → Prop :=
  | Step_clean i e c :
      sv_tasks c !! i = Some PStart →
      file_Extent (sv_file c) !! i = Some e →
      ext_dirty e = false →
      Step sess (Run i) c (set_task i PDone (sv_bucket c) c)
  | Step_hit i e c :
      sv_tasks c !! i = Some PStart →
      file_Extent (sv_file c) !! i = Some e →
      ext_dirty e = true →
      is_Some (objects (sv_bucket c) !! CurrentKey sess e) →
      Step sess (Run i) c
        (set_task i PDone (called (CallIsExist (CurrentKey sess e)) (sv_bucket c)) c)
  | Step_miss i e c :
      sv_tasks c !! i = Some PStart →
      file_Extent (sv_file c) !! i = Some e →
      ext_dirty e = true →
      objects (sv_bucket c) !! CurrentKey sess e = None →
      Step sess (Run i) c
        (set_task i (PUpload (CurrentKey sess e))
           (called (CallIsExist (CurrentKey sess e)) (sv_bucket c)) c)
  | Step_upload_fail i key e err c :
      sv_tasks c !! i = Some (PUpload key) →
      file_Extent (sv_file c) !! i = Some e →
      upload_fault sess key = Some err →
      Step sess (Run i) c
        (set_task i (PSend err) (called (CallUpload key) (sv_bucket c)) c)
  | Step_upload i key e c :
      sv_tasks c !! i = Some (PUpload key) →
      file_Extent (sv_file c) !! i = Some e →
      upload_fault sess key = None →
      Step sess (Run i) c
        (set_task i PClear
           (mkBucket (<[key:=Raw (ext_body e)]> (objects (sv_bucket c)))
                     (trace (sv_bucket c) ++ [CallUpload key])) c)
  | Step_clear i e c :
      sv_tasks c !! i = Some PClear →
      file_Extent (sv_file c) !! i = Some e →
      Step sess (Run i) c
        (mkSaving (set_extent i (mkExtent (ext_Key e) (ext_body e) false) (sv_file c))
                  (<[i:=PDone]> (sv_tasks c)) (sv_bucket c) (sv_result c))
  | Step_recv i err c :
      sv_result c = None →
      sv_tasks c !! i = Some (PSend err) →
      Step sess (Recv i) c
        (mkSaving (sv_file c) (<[i:=PGone]> (sv_tasks c)) (sv_bucket c)
                  (Some (Some err)))
  | Step_marshal_error c err :
      sv_result c = None →
      map_Forall (λ _ p, p = PDone) (sv_tasks c) →
      marshal_File (sv_file c) = inl err →
      Step sess Finish c
        (mkSaving (sv_file c) (sv_tasks c) (sv_bucket c) (Some (Some err)))
  | Step_finish c result r b :
      sv_result c = None →
      map_Forall (λ _ p, p = PDone) (sv_tasks c) →
      marshal_File (sv_file c) = inr result →
      UploadWithCache sess (file_Key (sv_file c)) (Doc result) (sv_bucket c)
      = (r, b) →
      Step sess Finish c (mkSaving (sv_file c) (sv_tasks c) b (Some r)).

(** ** What holds of a Save in progress *)

(** While Save is blocked no task has had its error received; once it has
    returned, either an error was received from a task or every task called
    wg.Done(). *)
Definition result_inv (tasks : gmap Z pc) (r : option go_error) : Prop :=
  match r with
  | None => ∀ i, tasks !! i ≠ Some PGone
  | Some r =>
      (is_Some r ∧ ∃ i, tasks !! i = Some PGone)
      ∨ map_Forall (λ _ p, p = PDone) tasks
  end.

Record Save_inv (sess : Session) (o : File) (c : Saving) : Prop := mkSave_inv {
  inv_Key : file_Key (sv_file c) = file_Key o;
  inv_Meta : file_Meta (sv_file c) = file_Meta o;
  inv_ExtentSize : file_ExtentSize (sv_file c) = file_ExtentSize o;
  inv_keys : ext_Key <$> file_Extent (sv_file c) = ext_Key <$> file_Extent o;
  inv_bodies : ext_body <$> file_Extent (sv_file c) = ext_body <$> file_Extent o;
  inv_clean : ∀ i e e',
    file_Extent o !! i = Some e → file_Extent (sv_file c) !! i = Some e' →
    ext_dirty e = false → ext_dirty e' = false;
  inv_dom : dom (sv_tasks c) = dom (file_Extent (sv_file c));
  inv_upload : ∀ i key,
    sv_tasks c !! i = Some (PUpload key) →
    ∃ e, file_Extent (sv_file c) !! i = Some e ∧ key = CurrentKey sess e
         ∧ ext_dirty e = true;
  inv_result : result_inv (sv_tasks c) (sv_result c)
}.

(** Run a schedule in which every action must be enabled in its turn. *)
Fixpoint run_strict (sess : Session) (sched : list Action) (c : Saving)
  : option Saving :=
  match sched with
  | [] => Some c
  | a :: sched' =>
      match step sess a c with
      | Some c' => run_strict sess sched' c'
      | None => None
      end
  end.

(** ** Exactly one failing upload

    Every extent of [o] is dirty, the content addresses of their bodies are
    pairwise distinct and absent from the bucket, the upload of the extent at
    [j] fails with [err] and no other upload fails. *)
Record one_failing_upload (sess : Session) (o : File) (b : Bucket) (j : Z)
    (err : error) : Prop := mkOneFailing {
  ofu_dirty : ∀ i e, file_Extent o !! i = Some e → ext_dirty e = true;
  ofu_absent : ∀ i e,
    file_Extent o !! i = Some e → objects b !! CurrentKey sess e = None;
  ofu_distinct : ∀ i1 i2 e1 e2,
    i1 ≠ i2 → file_Extent o !! i1 = Some e1 → file_Extent o !! i2 = Some e2 →
    CurrentKey sess e1 ≠ CurrentKey sess e2;
  ofu_fails : ∃ e,
    file_Extent o !! j = Some e ∧ upload_fault sess (CurrentKey sess e) = Some err;
  ofu_others : ∀ i e,
    i ≠ j → file_Extent o !! i = Some e →
    upload_fault sess (CurrentKey sess e) = None
}.

(** Where the task of extent [i] stands, [e0] being the extent when Save
    began, [e] the extent now and [objs] the objects in the bucket now. *)
Definition pf_task_ok (sess : Session) (j : Z) (err : error) (i : Z)
    (e0 e : Extent) (p : pc) (objs : gmap string Object) : Prop :=
  match p with
  | PStart => ext_dirty e = true ∧ objs !! CurrentKey sess e0 = None
  | PUpload key => key = CurrentKey sess e0 ∧ objs !! CurrentKey sess e0 = None
  | PClear => i ≠ j ∧ objs !! CurrentKey sess e0 = Some (Raw (ext_body e0))
  | PSend err' => i = j ∧ err' = err
  | PDone =>
      i ≠ j ∧ ext_dirty e = false
      ∧ objs !! CurrentKey sess e0 = Some (Raw (ext_body e0))
  | PGone => i = j
  end.

Record pf_inv (sess : Session) (o : File) (b : Bucket) (j : Z) (err : error)
    (c : Saving) : Prop := mkPfInv {
  pf_tasks : ∀ i e0,
    file_Extent o !! i = Some e0 →
    ∃ e p, file_Extent (sv_file c) !! i = Some e ∧ sv_tasks c !! i = Some p
           ∧ ext_body e = ext_body e0
           ∧ pf_task_ok sess j err i e0 e p (objects (sv_bucket c));
  pf_result : sv_result c = None ∨ sv_result c = Some (Some err);
  pf_trace : ∀ k,
    CallUploadWithCache k ∈ trace (sv_bucket c) → CallUploadWithCache k ∈ trace b;
  pf_frame : ∀ k,
    (∀ i e0, file_Extent o !! i = Some e0 → CurrentKey sess e0 ≠ k) →
    objects (sv_bucket c) !! k = objects b !! k
}.

(** What is left to do: each step of a task, and Save's return, count one. *)
Definition pc_weight (p : pc) : nat :=
  match p with
  | PStart => 3
  | PUpload _ => 2
  | PClear => 1
  | PSend _ => 1
  | PDone => 0
  | PGone => 0
  end.

Definition work_left (c : Saving) : nat :=
  (map_fold (λ _ p n, pc_weight p + n) 0 (sv_tasks c)
   + match sv_result c with None => 1 | Some _ => 0 end)%nat.

(** The fields of a node that its record carries. *)
Definition persisted_Directory (o : Directory) :=
  (dir_Key o, dir_Meta o, dir_FileMeta o).

Definition persisted_File (o : File) :=
  (file_Key o, file_Meta o, file_ExtentSize o, ext_Key <$> file_Extent o).

Definition persisted_SymLink (o : SymLink) :=
  (link_Key o, link_Meta o, link_LinkTo o).

(** The Extent invariant: a clean extent whose body is loaded holds the
    content its key addresses. *)
Definition ext_inv (sess : Session) (e : Extent) : Prop :=
  ext_dirty e = false → ext_body e ≠ [] → KeyGen sess (ext_body e) = ext_Key e.

(** ** A concrete session and file for evaluation *)

(** A key generator that names a body by its own bytes (collision-free). *)
Definition plain_session : Session :=
  mkSession String.string_of_list_byte (λ _, None) (λ _, None) (λ _ _, None).

Definition empty_bucket : Bucket := mkBucket ∅ [].

Definition time0 : Time := TimeText "2018-03-01T12:00:00Z".

Definition meta0 : Meta := mkMeta 10 420 1000 1000 time0 time0 time0.

Definition body10 : bytes := String.list_byte_of_string "0123456789".

(** One dirty extent at index 0 holding ten bytes, recorded under a key that
    is not the address of those bytes. *)
Definition file_one : File :=
  mkFile "f" meta0 4096 {[ 0 := mkExtent "stale" body10 true ]} false.

Definition sched_one : list Action := [Run 0; Run 0; Run 0; Finish].

(** The same body is already in the bucket under its content address. *)
Definition bucket_with_body : Bucket :=
  mkBucket {[ String.string_of_list_byte body10 := Raw body10 ]} [].

(** Two extents with the same bytes. *)
Definition file_twins : File :=
  mkFile "f" meta0 4096
    (<[0 := mkExtent "stale" body10 true]> {[ 1 := mkExtent "stale" body10 true ]})
    false.

(** A session whose Upload fails on the key "bad". *)
Definition faulty_session : Session :=
  mkSession String.string_of_list_byte
    (λ k, if String.eqb k "bad" then Some (ErrStore "upload failed") else None)
    (λ _, None) (λ _ _, None).

(** Two dirty extents; the upload of the one at index 0 fails. *)
Definition file_two : File :=
  mkFile "f" meta0 4096
    (<[0 := mkExtent "" (String.list_byte_of_string "bad") true]>
       {[ 1 := mkExtent "" (String.list_byte_of_string "good") true ]})
    false.

(** The failing task runs first and Save returns on its error. *)
Definition sched_fail_first : list Action := [Run 0; Run 0; Recv 0].

(** ** Statements of the specification that do not hold as written *)

(** Fill twice: the same body as once, no further store call, success. *)
Definition Fill_twice (sess : Session) (e : Extent) (b : Bucket)
  : go_error * Extent * Bucket :=
  let r := Fill sess e b in Fill sess r.1.2 r.2.

Definition Fill_twice_claim (sess : Session) (e : Extent) (b : Bucket) : Prop :=
  ext_body (Fill_twice sess e b).1.2 = ext_body (Fill sess e b).1.2
  ∧ trace (Fill_twice sess e b).2 = trace (Fill sess e b).2
  ∧ (Fill_twice sess e b).1.1 = None.

(** One failing upload among N dirty extents: an error is returned, the
    other extents are clean under the address of their body, and no metadata
    upload was made. *)
Definition partial_failure_claim (sess : Session) (o : File) (b : Bucket) (j : Z)
  : Prop :=
  ∀ sched, let c := File_Save sess sched o b in
    is_Some (sv_result c) →
    (∃ err, sv_result c = Some (Some err))
    ∧ (∀ i e, i ≠ j → file_Extent (sv_file c) !! i = Some e →
         ext_dirty e = false ∧ ext_Key e = CurrentKey sess e)
    ∧ CallUploadWithCache (file_Key o) ∉ trace (sv_bucket c).

(** When Save has returned, no task it launched can take a further step. *)
Definition supervised_claim (sess : Session) (o : File) (b : Bucket) : Prop :=
  ∀ sched, let c := File_Save sess sched o b in
    is_Some (sv_result c) → ∀ i, task_step sess i c = None.

(** A successful Save, a download of the node's key and a decode give back
    the persisted fields. *)
Definition Directory_roundtrip_claim (sess : Session) (o : Directory) (b : Bucket)
  : Prop :=
  ∀ b', Directory_Save sess o b = (None, b') →
    persisted_Directory <$> (load_doc sess (dir_Key o) b' ≫= unmarshal_Directory)
    = Some (persisted_Directory o).

Definition empty_dir : Directory := mkDirectory "d" meta0 ∅.

Definition dir_with_child : Directory := mkDirectory "d" meta0 {[ "a" := "k1" ]}%string.

(** ** The file's record during a Save whose key is fresh

    Nothing is stored under the file's key while Save is blocked; once Save
    has returned nil the record of the file is stored there. *)
Definition rt_inv (o : File) (c : Saving) : Prop :=
  match sv_result c with
  | None => objects (sv_bucket c) !! file_Key o = None
  | Some None =>
      ∃ result, marshal_File (sv_file c) = inr result
                ∧ objects (sv_bucket c) !! file_Key o = Some (Doc result)
  | Some (Some _) => True
  end.

Definition empty_dir_record : JSON :=
  JObj [("key", JStr "d"); ("meta",
        JObj [("size", JNum 10); ("mode", JNum 420); ("uid", JNum 1000);
              ("gid", JNum 1000); ("atime", JStr "2018-03-01T12:00:00Z");
              ("ctime", JStr "2018-03-01T12:00:00Z");
              ("mtime", JStr "2018-03-01T12:00:00Z")]);
        ("children", JObj [])]%string.

Definition bucket_with_empty_dir : Bucket :=
  mkBucket {[ "d"%string := Doc empty_dir_record ]} [].

(** ** The store during a Save *)

(** A store call made by the task of a dirty extent of [o]: the presence
    check of its content address, or the upload under that address, which is
    only made for an address that was absent when Save began. *)
Definition extent_call (sess : Session) (o : File) (b : Bucket) (r : Request) : Prop :=
  ∃ i e, file_Extent o !! i = Some e ∧ ext_dirty e = true
         ∧ (r = CallIsExist (CurrentKey sess e)
            ∨ (r = CallUpload (CurrentKey sess e)
               ∧ objects b !! CurrentKey sess e = None)).

(** [b] is the bucket when Save began. *)
Record store_inv (sess : Session) (o : File) (b : Bucket) (c : Saving) : Prop :=
  mkStoreInv {
  si_old : ∀ k x, objects b !! k = Some x → objects (sv_bucket c) !! k = Some x;
  si_upload : ∀ i key,
    sv_tasks c !! i = Some (PUpload key) → objects b !! key = None;
  si_frame : ∀ k,
    k ≠ file_Key o →
    (∀ i e, file_Extent o !! i = Some e → ext_dirty e = true → CurrentKey sess e ≠ k) →
    objects (sv_bucket c) !! k = objects b !! k;
  si_calls : ∃ t,
    Forall (extent_call sess o b) t
    ∧ (trace (sv_bucket c) = trace b ++ t
       ∨ (trace (sv_bucket c) = trace b ++ t ++ [CallUploadWithCache (file_Key o)]
          ∧ map_Forall (λ _ p, p = PDone) (sv_tasks c)
          ∧ is_Some (sv_result c)))
}.

(** Where the errors come from: a task sends the error of its own upload,
    and Save returns the error of a task, of json.Marshal or of the metadata
    upload. *)
Record error_inv (sess : Session) (o : File) (c : Saving) : Prop := mkErrorInv {
  ei_send : ∀ i err,
    sv_tasks c !! i = Some (PSend err) →
    ∃ e, file_Extent o !! i = Some e ∧ ext_dirty e = true
         ∧ upload_fault sess (CurrentKey sess e) = Some err;
  ei_result : ∀ err,
    sv_result c = Some (Some err) →
    (∃ i e, file_Extent o !! i = Some e ∧ ext_dirty e = true
            ∧ upload_fault sess (CurrentKey sess e) = Some err)
    ∨ marshal_Meta (file_Meta o) = inl err
    ∨ cache_upload_fault sess (file_Key o) = Some err
}.

(** Two dirty extents with the same bytes, neither of which can be uploaded. *)
Definition file_two_bad : File :=
  mkFile "f" meta0 4096
    (<[0 := mkExtent "" (String.list_byte_of_string "bad") true]>
       {[ 1 := mkExtent "" (String.list_byte_of_string "bad") true ]})
    false.

(** Both tasks fail; Save receives the error of the first. *)
Definition sched_both_fail : list Action := [Run 0; Run 1; Run 0; Run 1; Recv 0].

(** A file with a modification time whose year is outside 0..9999. *)
Definition file_bad_time : File :=
  mkFile "f" (mkMeta 10 420 1000 1000 time0 time0 TimeOutOfRange) 4096
    {[ 0 := mkExtent "stale" body10 true ]} false.

(** A store client whose first Download fails and whose later ones answer. *)
Definition flaky_session : Session :=
  mkSession String.string_of_list_byte (λ _, None) (λ _, None)
    (λ calls _, match calls with [] => Some (ErrStore "timeout") | _ => None end).

(** A file whose extents are all clean. *)
Definition file_clean : File :=
  mkFile "f" meta0 4096 {[ 0 := mkExtent "k0" body10 false ]} false.

(** ** The bodies of dirty extents during a Save

    Under the content address of the body of a dirty extent of [o] there is
    nothing, or that body; once the task of such an extent is past its
    upload or its presence check, something is stored there; and a task
    that has not started has not changed the flag of its extent. *)
Record persist_inv (sess : Session) (o : File) (c : Saving) : Prop := mkPersistInv {
  pi_content : ∀ i e0,
    file_Extent o !! i = Some e0 → ext_dirty e0 = true →
    objects (sv_bucket c) !! CurrentKey sess e0 = None
    ∨ objects (sv_bucket c) !! CurrentKey sess e0 = Some (Raw (ext_body e0));
  pi_present : ∀ i e0 p,
    file_Extent o !! i = Some e0 → ext_dirty e0 = true →
    sv_tasks c !! i = Some p → p = PClear ∨ p = PDone →
    is_Some (objects (sv_bucket c) !! CurrentKey sess e0);
  pi_start : ∀ i e0 e,
    file_Extent o !! i = Some e0 → sv_tasks c !! i = Some PStart →
    file_Extent (sv_file c) !! i = Some e → ext_dirty e = ext_dirty e0
}.

(** Upload calls in a trace, and the tasks that may still make one. *)
Definition is_upload (r : Request) : bool :=
  match r with
  | CallUpload _ => true
  | _ => false
  end.

Definition upload_calls (t : list Request) : nat :=
  length (filter (λ r, is_upload r = true) t).

Definition may_upload (p : pc) : nat :=
  match p with
  | PStart => 1
  | PUpload _ => 1
  | _ => 0
  end.

Definition uploads_pending (c : Saving) : nat :=
  map_fold (λ _ p n, may_upload p + n)%nat 0%nat (sv_tasks c).

(** One dirty extent recorded under the content address of its body. *)
Definition file_keyed : File :=
  mkFile "f" meta0 4096
    {[ 0 := mkExtent (String.string_of_list_byte body10) body10 true ]} false.

Definition link0 : SymLink := mkSymLink "l" meta0 "target".

(** The flag of an extent is written by the last step of its task only:
    until the task is done the flag is the one from when Save began. *)
Definition flag_inv (o : File) (c : Saving) : Prop :=
  ∀ i p e0 e,
    file_Extent o !! i = Some e0 → sv_tasks c !! i = Some p →
    file_Extent (sv_file c) !! i = Some e → p ≠ PDone →
    ext_dirty e = ext_dirty e0.

(** * Theorems *)

(** ** Extent.Fill *)

Section Fill_facts.
Context (sess : Session).

Lemma Fill_filled e b :
  ext_dirty e = true ∨ ext_body e ≠ [] → Fill sess e b = (None, e, b).
Proof.
  unfold Fill. intros [-> | Hb]; [done |].
  destruct (ext_body e); [done |]. cbn. by rewrite orb_true_r.
Qed.

Lemma Fill_empty_clean e b :
  ext_dirty e = false → ext_body e = [] →
  Fill sess e b =
    match Download sess (ext_Key e) b with
    | (inl err, b') => (Some err, e, b')
    | (inr o, b') => (None, mkExtent (ext_Key e) (object_bytes o) (ext_dirty e), b')
    end.
Proof. unfold Fill. by intros -> ->. Qed.

Lemma Download_objects k b : objects (Download sess k b).2 = objects b.
Proof.
  unfold Download. cbn.
  destruct (download_fault sess (trace b) k); [done |]. by destruct (objects b !! k).
Qed.

Lemma Download_trace k b : trace (Download sess k b).2 = trace b ++ [CallDownload k].
Proof.
  unfold Download. cbn.
  destruct (download_fault sess (trace b) k); [done |]. by destruct (objects b !! k).
Qed.

(** A download that answers gives the object stored under the key. *)
Lemma Download_answer k b o :
  (Download sess k b).1 = inr o → objects b !! k = Some o.
Proof.
  unfold Download. cbn.
  destruct (download_fault sess (trace b) k); [done |].
  destruct (objects b !! k); [| done]. by intros [= ->].
Qed.

Lemma Fill_Key e b : ext_Key (Fill sess e b).1.2 = ext_Key e.
Proof.
  unfold Fill. destruct (_ || _); [done |].
  by destruct (Download sess (ext_Key e) b) as [[err | o] b'].
Qed.

Lemma Fill_dirty_flag e b : ext_dirty (Fill sess e b).1.2 = ext_dirty e.
Proof.
  unfold Fill. destruct (_ || _); [done |].
  by destruct (Download sess (ext_Key e) b) as [[err | o] b'].
Qed.

Lemma Fill_objects e b : objects (Fill sess e b).2 = objects b.
Proof.
  unfold Fill. destruct (_ || _); [done |].
  pose proof (Download_objects (ext_Key e) b) as H.
  by destruct (Download sess (ext_Key e) b) as [[err | o] b'].
Qed.

(** Fill keeps the invariant when the object under the extent's key is the
    content that key addresses. *)
Lemma Fill_ext_inv e b :
  (∀ o, objects b !! ext_Key e = Some o → KeyGen sess (object_bytes o) = ext_Key e) →
  ext_inv sess e → ext_inv sess (Fill sess e b).1.2.
Proof.
  intros Hstore Hinv. unfold Fill.
  destruct (_ || _) eqn:Hguard; [done |].
  unfold Download. cbn.
  destruct (download_fault sess (trace b) (ext_Key e)); [done |].
  destruct (objects b !! ext_Key e) as [o |] eqn:Hk; [| done].
  intros _ _. cbn. by apply Hstore.
Qed.
End Fill_facts.

(** C9: on a dirty extent Fill reports success and leaves the extent and the
    bucket, its call trace included, as they were: no store call is made,
    whatever the length of the body. *)
Theorem Fill_dirty_no_store_call (sess : Session) (e : Extent) (b : Bucket) :
  ext_dirty e = true → Fill sess e b = (None, e, b).
Proof. intros Hd. apply Fill_filled. by left. Qed.

Lemma Fill_dirty_no_store_call_witness :
  ext_dirty (mkExtent "k" [] true) = true
  ∧ Fill plain_session (mkExtent "k" [] true) empty_bucket
    = (None, mkExtent "k" [] true, empty_bucket).
Proof.
  split; [reflexivity |].
  apply (Fill_dirty_no_store_call plain_session (mkExtent "k" [] true) empty_bucket).
  reflexivity.
Defined.

(** C7: when Fill downloads (the extent is clean and empty) and the store
    answers with an error, Fill returns that error and the extent is
    unchanged, body empty and dirty false; the next Fill calls Download on
    the same key again. *)
Theorem Fill_download_error (sess : Session) (e : Extent) (b b' : Bucket) (err : error) :
  ext_dirty e = false → ext_body e = [] →
  Download sess (ext_Key e) b = (inl err, b') →
  Fill sess e b = (Some err, e, b')
  ∧ ext_body e = [] ∧ ext_dirty e = false
  ∧ trace (Fill sess e b').2 = trace b' ++ [CallDownload (ext_Key e)].
Proof.
  intros Hd Hb Hdl. split_and!; try done.
  - rewrite Fill_empty_clean by done. by rewrite Hdl.
  - rewrite Fill_empty_clean by done.
    pose proof (Download_trace sess (ext_Key e) b') as Ht.
    by destruct (Download sess (ext_Key e) b') as [[err' | o] b''].
Qed.

Lemma Fill_download_error_witness :
  Fill plain_session (mkExtent "missing" [] false) empty_bucket
  = (Some (ErrNotFound "missing"), mkExtent "missing" [] false,
     mkBucket ∅ [CallDownload "missing"]).
Proof.
  apply (Fill_download_error plain_session (mkExtent "missing" [] false) empty_bucket
           (mkBucket ∅ [CallDownload "missing"]) (ErrNotFound "missing"));
    reflexivity.
Defined.




(** A download that fails once and answers the next time: the first Fill
    returns the error and leaves the body empty, the second loads the body. *)
Lemma Fill_after_failed_download :
  let e := mkExtent "k" [] false in
  let b := mkBucket {[ "k"%string := Raw body10 ]} [] in
  (Fill flaky_session e b).1 = (Some (ErrStore "timeout"), e)
  ∧ ext_body (Fill_twice flaky_session e b).1.2 = body10.
Proof. cbn zeta. split; reflexivity. Qed.

(** ** The JSON codec *)

Lemma atoi_itoa (z : Z) : atoi (itoa z) = Some z.
Proof.
  unfold atoi, itoa. rewrite NilZero.isi.
  - by rewrite DecimalZ.of_to.
  - destruct z as [| p | p]; cbn; [done | | done].
    intros [= H]. by apply (DecimalPos.Unsigned.to_uint_nonnil p).
  - destruct z as [| p | p]; cbn; [done | done |].
    intros [= H]. by apply (DecimalPos.Unsigned.to_uint_nonnil p).
Qed.

Lemma rune_size_pos bs n : rune_size bs = Some n → (1 ≤ n)%nat.
Proof.
  unfold rune_size. intros H.
  repeat (case_match; simplify_eq; try lia).
Qed.

Lemma utf8_coerce_bytes_valid fuel bs :
  (length bs ≤ fuel)%nat → utf8_valid_bytes fuel bs = true →
  utf8_coerce_bytes fuel bs = bs.
Proof.
  revert bs. induction fuel as [| fuel IH]; intros bs Hlen.
  - destruct bs; [done | cbn in Hlen; lia].
  - destruct bs as [| b0 rest]; [done |]. cbn [utf8_valid_bytes utf8_coerce_bytes].
    destruct (rune_size (b0 :: rest)) as [n |] eqn:Hn; [| done].
    intros Hv. apply rune_size_pos in Hn.
    rewrite IH; [by rewrite take_drop | | done].
    rewrite length_drop. cbn in *. lia.
Qed.

(** A valid string is written, and read back, as it is. *)
Lemma utf8_coerce_valid s : utf8_valid s = true → utf8_coerce s = s.
Proof.
  unfold utf8_valid, utf8_coerce. intros Hv.
  rewrite utf8_coerce_bytes_valid by done.
  apply String.string_of_list_byte_of_string.
Qed.

Lemma list_to_map_perm `{Countable K} {A} (l : list (K * A)) (m : gmap K A) :
  l ≡ₚ map_to_list m → list_to_map l = m.
Proof.
  intros Hperm. rewrite <- (list_to_map_to_list m).
  apply list_to_map_proper; [| done].
  rewrite Hperm. apply NoDup_fst_map_to_list.
Qed.

Lemma mapM_map_Some {A B C} (f : B → option C) (g : A → B) (h : A → C) (l : list A) :
  (∀ x, x ∈ l → f (g x) = Some (h x)) → mapM f (map g l) = Some (map h l).
Proof.
  induction l as [| x l IH]; intros Hl; [done |].
  cbn. rewrite (Hl x) by apply list_elem_of_here. cbn.
  rewrite IH; [done |]. intros y Hy. apply Hl. by apply list_elem_of_further.
Qed.

Lemma unmarshal_marshal_Meta (m : Meta) (j : JSON) :
  marshal_Meta m = inr j → ∃ fs, j = JObj fs ∧ unmarshal_Meta fs = Some m.
Proof.
  destruct m as [sz md uid gid [a |] [c |] [t |]]; cbn; try done.
  intros [= <-]. eexists. split; [done |]. reflexivity.
Qed.

Lemma unmarshal_marshal_Directory (o : Directory) (j : JSON) :
  valid_Directory o → marshal_Directory o = inr j → unmarshal_Directory j = Some o.
Proof.
  destruct o as [k m fm]. intros [Hk Hfm]. unfold marshal_Directory. cbn in *.
  destruct (marshal_Meta m) as [err | jm] eqn:Hm; [done |].
  destruct (unmarshal_marshal_Meta m jm Hm) as (fs & -> & Hfs).
  intros [= <-]. cbn. rewrite !(utf8_coerce_valid k) by done. rewrite Hfs. cbn.
  rewrite (mapM_map_Some _ _ id).
  - cbn. rewrite List.map_id. do 2 f_equal. apply list_to_map_perm.
    rewrite reverse_Permutation. apply merge_sort_Permutation.
  - intros [n key] Hin. unfold unmarshal_child. cbn.
    assert ((n, key) ∈ map_to_list fm) as Hin'
      by (by rewrite <- (merge_sort_Permutation key_le (map_to_list fm))).
    apply elem_of_map_to_list in Hin'. destruct (Hfm n key Hin') as [Hn Hkey].
    by rewrite !(utf8_coerce_valid n), !(utf8_coerce_valid key).
Qed.

Lemma unmarshal_marshal_SymLink (o : SymLink) (j : JSON) :
  valid_SymLink o → marshal_SymLink o = inr j → unmarshal_SymLink j = Some o.
Proof.
  destruct o as [k m t]. intros [Hk Ht]. unfold marshal_SymLink. cbn in *.
  destruct (marshal_Meta m) as [err | jm] eqn:Hm; [done |].
  destruct (unmarshal_marshal_Meta m jm Hm) as (fs & -> & Hfs).
  intros [= <-]. cbn.
  rewrite !(utf8_coerce_valid k), !(utf8_coerce_valid t) by done.
  by rewrite Hfs.
Qed.

Lemma unmarshal_marshal_File (o : File) (j : JSON) :
  valid_File o → marshal_File o = inr j →
  unmarshal_File j
  = Some (mkFile (file_Key o) (file_Meta o) (file_ExtentSize o)
            ((λ e, mkExtent (ext_Key e) [] false) <$> file_Extent o) false).
Proof.
  destruct o as [k m n exts d]. intros [Hk Hexts]. unfold marshal_File. cbn in *.
  destruct (marshal_Meta m) as [err | jm] eqn:Hm; [done |].
  destruct (unmarshal_marshal_Meta m jm Hm) as (fs & -> & Hfs).
  intros [= <-]. cbn. rewrite !(utf8_coerce_valid k) by done. rewrite Hfs. cbn.
  set (S := sorted_members (map (λ p : Z * Extent, (itoa p.1, p.2)) (map_to_list exts))).
  assert (∀ q, q ∈ S → ∃ i e, exts !! i = Some e ∧ q = (itoa i, e)) as HS.
  { intros q Hq. unfold S, sorted_members in Hq.
    rewrite merge_sort_Permutation in Hq.
    apply list_elem_of_fmap in Hq as ([i e] & -> & Hin).
    apply elem_of_map_to_list in Hin. by exists i, e. }
  rewrite (mapM_map_Some _ _
             (λ q, (default 0 (atoi q.1), mkExtent (ext_Key q.2) [] false))).
  - cbn. do 2 f_equal. apply list_to_map_perm.
    rewrite reverse_Permutation. unfold S, sorted_members.
    rewrite merge_sort_Permutation, map_to_list_fmap.
    rewrite List.map_map.
    assert (∀ l : list (Z * Extent),
              map (λ p, (default 0 (atoi (itoa p.1)),
                         mkExtent (ext_Key p.2) [] false)) l
              = prod_map id (λ e, mkExtent (ext_Key e) [] false) <$> l) as ->; [| done].
    induction l as [| [i e] l IH]; [done |].
    cbn. by rewrite atoi_itoa, IH.
  - intros q Hq. destruct (HS q Hq) as (i & e & Hie & ->).
    unfold unmarshal_Extent. cbn. rewrite atoi_itoa. cbn.
    by rewrite !(utf8_coerce_valid (ext_Key e)) by (by apply (Hexts i e)).
Qed.

(** ** The store client *)

Lemma UploadWithCache_fresh sess k o b b' :
  objects b !! k = None → UploadWithCache sess k o b = (None, b') →
  objects b' !! k = Some o.
Proof.
  unfold UploadWithCache. cbn. intros ->.
  destruct (cache_upload_fault sess k); [done |].
  intros [= <-]. cbn. by rewrite lookup_insert_eq.
Qed.

Lemma UploadWithCache_present sess k o o' b :
  objects b !! k = Some o' →
  UploadWithCache sess k o b = (None, called (CallUploadWithCache k) b).
Proof. unfold UploadWithCache. cbn. by intros ->. Qed.

Lemma Download_inr sess k b o b' :
  Download sess k b = (inr o, b') → objects b !! k = Some o.
Proof.
  unfold Download. cbn. destruct (download_fault sess (trace b) k); [done |].
  destruct (objects b !! k); [| done]. by intros [= -> _].
Qed.

(** ** File.Save: the step relation and what every step preserves *)

Section Save_steps.
Context (sess : Session).

Lemma step_Step a c c' : step sess a c = Some c' ↔ Step sess a c c'.
Proof.
  split.
  - destruct a as [i | i |]; cbn.
    + unfold task_step.
      destruct (sv_tasks c !! i) as [[| key | | err | |] |] eqn:Hp; try done;
        destruct (file_Extent (sv_file c) !! i) as [e |] eqn:He; try done.
      * destruct (ext_dirty e) eqn:Hd; cbn.
        -- case_bool_decide as Hk; intros [= <-].
           ++ by eapply Step_hit.
           ++ eapply Step_miss; try done.
              by apply eq_None_not_Some.
        -- intros [= <-]. by eapply Step_clean.
      * unfold Upload. cbn.
        destruct (upload_fault sess key) as [err |] eqn:Hf; intros [= <-].
        -- by eapply Step_upload_fail.
        -- by eapply Step_upload.
      * intros [= <-]. by eapply Step_clear.
    + unfold recv_step.
      destruct (sv_result c) eqn:Hr; [done |].
      destruct (sv_tasks c !! i) as [[| key | | err | |] |] eqn:Hp; try done.
      intros [= <-]. by eapply Step_recv.
    + unfold done_step, all_done.
      destruct (sv_result c) eqn:Hr; [done |].
      case_bool_decide as Hall; [| done].
      destruct (marshal_File (sv_file c)) as [merr | result] eqn:Hm.
      * intros [= <-]. by eapply Step_marshal_error.
      * destruct (UploadWithCache _ _ _ _) as [r b] eqn:Hu.
        intros [= <-]. by eapply Step_finish.
  - destruct 1 as [i e c Hp He Hd | i e c Hp He Hd Hk | i e c Hp He Hd Hk
                  | i key e err c Hp He Hf | i key e c Hp He Hf
                  | i e c Hp He | i err c Hr Hp | c merr Hr Hall Hm
                | c result r b Hr Hall Hm Hu]; cbn.
    + unfold task_step. by rewrite Hp, He, Hd.
    + unfold task_step. rewrite Hp, He, Hd. cbn. by rewrite bool_decide_eq_true_2.
    + unfold task_step. rewrite Hp, He, Hd. cbn.
      rewrite bool_decide_eq_false_2; [done |]. rewrite Hk. by intros [? ?].
    + unfold task_step, Upload. rewrite Hp, He. cbn. by rewrite Hf.
    + unfold task_step, Upload. rewrite Hp, He. cbn. by rewrite Hf.
    + unfold task_step. by rewrite Hp, He.
    + unfold recv_step. by rewrite Hr, Hp.
    + unfold done_step, all_done. rewrite Hr, bool_decide_eq_true_2 by done.
      by rewrite Hm.
    + unfold done_step, all_done. rewrite Hr, bool_decide_eq_true_2 by done.
      by rewrite Hm, Hu.
Qed.

(** A property kept by every step holds along every schedule. *)
Lemma run_invariant (P : Saving → Prop) :
  (∀ a c c', P c → Step sess a c c' → P c') →
  ∀ sched c, P c → P (run sess sched c).
Proof.
  intros Hstep sched. induction sched as [| a sched IH]; intros c Hc; [done |].
  cbn. apply IH. destruct (step sess a c) as [c' |] eqn:Hs; [| done].
  cbn. eapply Hstep; [done |]. by apply step_Step.
Qed.
End Save_steps.

(** ** The invariant of a Save in progress *)

Lemma fmap_insert_same {A B} (f : A → B) (m : gmap Z A) i x y :
  m !! i = Some x → f y = f x → f <$> <[i:=y]> m = f <$> m.
Proof.
  intros Hi Hf. rewrite fmap_insert. apply insert_id.
  by rewrite lookup_fmap, Hi, Hf.
Qed.

Lemma fmap_eq_lookup {A B} (f : A → B) (m m' : gmap Z A) i x' :
  f <$> m' = f <$> m → m' !! i = Some x' → ∃ x, m !! i = Some x ∧ f x = f x'.
Proof.
  intros Heq Hi.
  assert ((f <$> m) !! i = Some (f x')) as H
    by (by rewrite <- Heq, lookup_fmap, Hi).
  rewrite lookup_fmap in H. destruct (m !! i) as [x |]; [| done].
  exists x. split; [done |]. by injection H.
Qed.

Lemma result_inv_set_task tasks r i p p' :
  tasks !! i = Some p → p ≠ PDone → p ≠ PGone → p' ≠ PGone →
  result_inv tasks r → result_inv (<[i:=p']> tasks) r.
Proof.
  intros Hi Hnd Hng Hng' Hinv. destruct r as [r |]; cbn in *.
  - destruct Hinv as [[Hr [i1 Hi1]] | Hall].
    + left. split; [done |]. exists i1.
      rewrite lookup_insert_ne; [done |]. intros <-. congruence.
    + exfalso. apply Hnd. by apply (Hall i p).
  - intros i1. destruct (decide (i = i1)) as [<- | Hne].
    + rewrite lookup_insert_eq. congruence.
    + rewrite lookup_insert_ne by done. apply Hinv.
Qed.

Section Save_invariant.
Context (sess : Session) (o : File).

Lemma Save_inv_begin b : Save_inv sess o (Save_begin o b).
Proof.
  split; cbn; try done.
  - intros i e e' H1 H2. by simplify_eq.
  - by rewrite dom_fmap_L.
  - intros i key. rewrite lookup_fmap. by destruct (file_Extent o !! i).
  - intros i. rewrite lookup_fmap. by destruct (file_Extent o !! i).
Qed.

Lemma Save_inv_set_task c i p p' b :
  sv_tasks c !! i = Some p → p ≠ PDone → p ≠ PGone → p' ≠ PGone →
  (∀ key, p' = PUpload key →
     ∃ e, file_Extent (sv_file c) !! i = Some e ∧ key = CurrentKey sess e
          ∧ ext_dirty e = true) →
  Save_inv sess o c → Save_inv sess o (set_task i p' b c).
Proof.
  intros Hi Hnd Hng Hng' Hup [].
  split; cbn; try done.
  - rewrite dom_insert_lookup_L; [done |]. by rewrite Hi.
  - intros i1 key. destruct (decide (i = i1)) as [<- | Hne].
    + rewrite lookup_insert_eq. intros [= ->]. by apply Hup.
    + rewrite lookup_insert_ne by done. auto.
  - by eapply result_inv_set_task.
Qed.

Lemma Save_inv_step a c c' : Save_inv sess o c → Step sess a c c' → Save_inv sess o c'.
Proof.
  intros Hinv Hstep.
  destruct Hstep as [i e c Hp He Hd | i e c Hp He Hd Hk | i e c Hp He Hd Hk
                    | i key e err c Hp He Hf | i key e c Hp He Hf
                    | i e c Hp He | i err c Hr Hp | c merr Hr Hall Hm
                | c result r b Hr Hall Hm Hu].
  - by eapply Save_inv_set_task.
  - by eapply Save_inv_set_task.
  - eapply Save_inv_set_task; try done. intros key [= <-]. eauto.
  - by eapply Save_inv_set_task.
  - by eapply Save_inv_set_task.
  - destruct Hinv. split; cbn; try done.
    + rewrite <- inv_keys0. by eapply fmap_insert_same.
    + rewrite <- inv_bodies0. by eapply fmap_insert_same.
    + intros i1 e1 e1' H1. destruct (decide (i = i1)) as [<- | Hne].
      * rewrite lookup_insert_eq. by intros [= <-].
      * rewrite lookup_insert_ne by done. eauto.
    + rewrite !dom_insert_lookup_L; [done | by rewrite He | by rewrite Hp].
    + intros i1 key. destruct (decide (i = i1)) as [<- | Hne].
      * by rewrite lookup_insert_eq.
      * rewrite !lookup_insert_ne by done. auto.
    + by eapply result_inv_set_task.
  - destruct Hinv. split; cbn; try done.
    + rewrite dom_insert_lookup_L; [done |]. by rewrite Hp.
    + intros i1 key. destruct (decide (i = i1)) as [<- | Hne].
      * by rewrite lookup_insert_eq.
      * rewrite lookup_insert_ne by done. auto.
    + left. split; [done |]. exists i. by rewrite lookup_insert_eq.
  - destruct Hinv. split; cbn; try done. by right.
  - destruct Hinv. split; cbn; try done. by right.
Qed.

Lemma Save_inv_run sched c : Save_inv sess o c → Save_inv sess o (run sess sched c).
Proof. apply run_invariant. intros a c1 c2. apply Save_inv_step. Qed.

Lemma Save_inv_Save sched b : Save_inv sess o (File_Save sess sched o b).
Proof. apply Save_inv_run, Save_inv_begin. Qed.
End Save_invariant.

(** ** Save returns: every step uses up work, and Save is never stuck *)

Lemma weight_insert (tasks : gmap Z pc) i p p' :
  tasks !! i = Some p →
  (map_fold (λ _ p n, pc_weight p + n) 0 (<[i:=p']> tasks) + pc_weight p
   = map_fold (λ _ p n, pc_weight p + n) 0 tasks + pc_weight p')%nat.
Proof.
  intros Hi. rewrite <- insert_delete_eq.
  rewrite map_fold_insert_L; [| intros; lia | apply lookup_delete_eq].
  rewrite (map_fold_delete_L _ _ i p tasks); [lia | intros; lia | done].
Qed.

Section Save_returns.
Context (sess : Session).

Lemma Step_work_left a c c' :
  Step sess a c c' → (work_left c' < work_left c)%nat.
Proof.
  unfold work_left.
  destruct 1 as [i e c Hp He Hd | i e c Hp He Hd Hk | i e c Hp He Hd Hk
                | i key e err c Hp He Hf | i key e c Hp He Hf
                | i e c Hp He | i err c Hr Hp | c merr Hr Hall Hm
                | c result r b Hr Hall Hm Hu]; cbn;
    try (match goal with
         | |- context [<[i:=?p']> (sv_tasks c)] =>
             pose proof (weight_insert (sv_tasks c) i _ p' Hp) as Hw
         end; cbn in Hw; try rewrite Hr; lia).
  all: rewrite Hr; lia.
Qed.

(** A schedule of enabled actions is no longer than the work left. *)
Lemma run_strict_bounded sched c c' :
  run_strict sess sched c = Some c' →
  (length sched + work_left c' ≤ work_left c)%nat.
Proof.
  revert c. induction sched as [| a sched IH]; intros c; cbn.
  - intros [= <-]. lia.
  - destruct (step sess a c) as [c1 |] eqn:Hs; [| done].
    intros Hrun. apply IH in Hrun.
    apply step_Step, Step_work_left in Hs. lia.
Qed.

(** While Save has not returned, some action is enabled. *)
Lemma Save_progress o c :
  Save_inv sess o c → sv_result c = None → ∃ a c', Step sess a c c'.
Proof.
  intros Hinv Hr.
  destruct (decide (map_Forall (λ _ p, p = PDone) (sv_tasks c))) as [Hall | Hnot].
  - destruct (marshal_File (sv_file c)) as [merr | result] eqn:Hm.
    { eexists Finish, _. by eapply Step_marshal_error. }
    destruct (UploadWithCache sess (file_Key (sv_file c)) (Doc result) (sv_bucket c))
      as [r b] eqn:Hu.
    eexists Finish, _. by eapply Step_finish.
  - apply map_not_Forall in Hnot; [| apply _].
    destruct Hnot as (i & p & Hp & Hnd).
    assert (is_Some (file_Extent (sv_file c) !! i)) as [e He].
    { apply elem_of_dom. rewrite <- (inv_dom _ _ _ Hinv). apply elem_of_dom. eauto. }
    destruct p as [| key | | err | |].
    + destruct (ext_dirty e) eqn:Hd.
      * destruct (objects (sv_bucket c) !! CurrentKey sess e) eqn:Hk.
        -- eexists (Run i), _. by eapply Step_hit.
        -- eexists (Run i), _. by eapply Step_miss.
      * eexists (Run i), _. by eapply Step_clean.
    + destruct (upload_fault sess key) as [err |] eqn:Hf.
      * eexists (Run i), _. by eapply Step_upload_fail.
      * eexists (Run i), _. by eapply Step_upload.
    + eexists (Run i), _. by eapply Step_clear.
    + eexists (Recv i), _. by eapply Step_recv.
    + done.
    + pose proof (inv_result _ _ _ Hinv) as Hres. rewrite Hr in Hres.
      by destruct (Hres i).
Qed.

(** Save returns: from any point of a Save, a schedule leads to its return. *)
Lemma Save_returns_from o c :
  Save_inv sess o c → ∃ sched, is_Some (sv_result (run sess sched c)).
Proof.
  remember (work_left c) as n eqn:Hn. revert c Hn.
  induction n as [n IH] using lt_wf_ind. intros c -> Hinv.
  destruct (sv_result c) as [r |] eqn:Hr.
  - exists []. cbn. rewrite Hr. eauto.
  - destruct (Save_progress o c Hinv Hr) as (a & c' & Hstep).
    destruct (IH (work_left c') (Step_work_left _ _ _ Hstep) c' eq_refl
                (Save_inv_step sess o a c c' Hinv Hstep)) as [sched Hs].
    exists (a :: sched). cbn. apply step_Step in Hstep. by rewrite Hstep.
Qed.

Lemma run_app s1 s2 c : run sess (s1 ++ s2) c = run sess s2 (run sess s1 c).
Proof. revert c. induction s1 as [| a s1 IH]; intros c; [done |]. cbn. apply IH. Qed.
End Save_returns.

(** C10: neither Fill nor Save writes an extent's Key: after Fill the extent
    has the key it had, and along every schedule of Save every extent of the
    file has the key it had.  (CurrentKey returns a key and has no effect on
    the extent.) *)
Theorem Key_never_written (sess : Session) :
  (∀ e b, ext_Key (Fill sess e b).1.2 = ext_Key e)
  ∧ (∀ sched o b,
       ext_Key <$> file_Extent (sv_file (File_Save sess sched o b))
       = ext_Key <$> file_Extent o).
Proof.
  split.
  - apply Fill_Key.
  - intros sched o b. apply (inv_keys sess o), Save_inv_Save.
Qed.

(** C5, as stated, fails: with two dirty extents, when the task whose upload
    fails runs first Save returns its error while the other task has not
    started; that task can still run, upload and clear its extent's flag. *)
Lemma Save_returns_unsupervised :
  ¬ supervised_claim faulty_session file_two empty_bucket.
Proof.
  intros Hclaim. specialize (Hclaim sched_fail_first). cbn zeta in Hclaim.
  assert (is_Some (sv_result (File_Save faulty_session sched_fail_first file_two
                                empty_bucket))) as Hret
    by (vm_compute; eauto).
  specialize (Hclaim Hret 1). vm_compute in Hclaim. discriminate.
Qed.

(** When Save has returned nil, every task has called wg.Done() and none can
    take a step. *)
Lemma Save_nil_all_done (sess : Session) (sched : list Action) (o : File) (b : Bucket) :
  let c := File_Save sess sched o b in
  sv_result c = Some None →
  map_Forall (λ _ p, p = PDone) (sv_tasks c) ∧ ∀ i, task_step sess i c = None.
Proof.
  intros c Hr.
  pose proof (inv_result sess o c (Save_inv_Save sess o sched b)) as Hres.
  rewrite Hr in Hres. cbn in Hres.
  destruct Hres as [[[x Hx] _] | Hall]; [done |].
  split; [done |]. intros i. unfold task_step.
  destruct (sv_tasks c !! i) as [p |] eqn:Hp; [| done].
  by rewrite (Hall i p Hp).
Qed.

Lemma run_cons_Step (sess : Session) a sched c c' :
  Step sess a c c' → run sess (a :: sched) c = run sess sched c'.
Proof. intros Hstep. apply step_Step in Hstep. cbn. by rewrite Hstep. Qed.

(** C5, amended: Save is fail-fast and does not supervise the tasks it leaves
    behind.  Whenever Save has returned, either it returned an error received
    on errc from a task, or every launched task had finished (done was
    closed: a nil return, the error of json.Marshal or of the metadata
    upload) and none can take a step.  And on the error path Save does not
    wait: when the upload of extent [j] fails and the task of another dirty
    extent [i] has not run yet, Save returns that error with the task of [i]
    not started, the store untouched; that task is neither awaited nor
    cancelled, and after the return it still uploads its body and clears
    its extent's dirty flag. *)
Theorem Save_fail_fast (sess : Session) (o : File) (b : Bucket) :
  (∀ sched r,
     let c := File_Save sess sched o b in
     sv_result c = Some r →
     (is_Some r ∧ ∃ i, sv_tasks c !! i = Some PGone)
     ∨ (map_Forall (λ _ p, p = PDone) (sv_tasks c)
        ∧ ∀ i, task_step sess i c = None))
  ∧ (∀ j i ej ei err,
       file_Extent o !! j = Some ej → ext_dirty ej = true →
       objects b !! CurrentKey sess ej = None →
       upload_fault sess (CurrentKey sess ej) = Some err →
       file_Extent o !! i = Some ei → i ≠ j → ext_dirty ei = true →
       objects b !! CurrentKey sess ei = None →
       upload_fault sess (CurrentKey sess ei) = None →
       let c := File_Save sess [Run j; Run j; Recv j] o b in
       let c' := run sess [Run i; Run i; Run i] c in
       (sv_result c = Some (Some err)
        ∧ sv_tasks c !! i = Some PStart
        ∧ file_Extent (sv_file c) !! i = Some ei
        ∧ objects (sv_bucket c) = objects b)
       ∧ (sv_result c' = Some (Some err)
          ∧ file_Extent (sv_file c') !! i
            = Some (mkExtent (ext_Key ei) (ext_body ei) false)
          ∧ objects (sv_bucket c') !! CurrentKey sess ei
            = Some (Raw (ext_body ei)))).
Proof.
  split.
  - intros sched r c Hr.
    pose proof (inv_result sess o c (Save_inv_Save sess o sched b)) as Hres.
    rewrite Hr in Hres. cbn in Hres.
    destruct Hres as [Hgone | Hall]; [by left |]. right.
    split; [done |]. intros i. unfold task_step.
    destruct (sv_tasks c !! i) as [p |] eqn:Hp; [| done].
    by rewrite (Hall i p Hp).
  - intros j i ej ei err Hj Hdj Hkj Hfj Hi Hij Hdi Hki Hfi.
    (* the task of j: IsExist answers false, Upload fails, Save receives *)
    set (c0 := Save_begin o b).
    assert (Step sess (Run j) c0
              (set_task j (PUpload (CurrentKey sess ej))
                 (called (CallIsExist (CurrentKey sess ej)) (sv_bucket c0)) c0)) as S1.
    { apply Step_miss; try done. cbn. by rewrite lookup_fmap, Hj. }
    set (c1 := set_task j _ _ c0) in S1.
    assert (Step sess (Run j) c1
              (set_task j (PSend err)
                 (called (CallUpload (CurrentKey sess ej)) (sv_bucket c1)) c1)) as S2.
    { eapply Step_upload_fail; try done. cbn. by rewrite lookup_insert_eq. }
    set (c2 := set_task j (PSend err) _ c1) in S2.
    assert (Step sess (Recv j) c2
              (mkSaving (sv_file c2) (<[j:=PGone]> (sv_tasks c2)) (sv_bucket c2)
                 (Some (Some err)))) as S3.
    { apply Step_recv; [done |]. cbn. by rewrite lookup_insert_eq. }
    set (c3 := mkSaving _ _ _ _) in S3.
    assert (File_Save sess [Run j; Run j; Recv j] o b = c3) as ->.
    { unfold File_Save. fold c0.
      by rewrite (run_cons_Step _ _ _ _ _ S1), (run_cons_Step _ _ _ _ _ S2),
           (run_cons_Step _ _ _ _ _ S3). }
    assert (sv_tasks c3 !! i = Some PStart) as Hpi.
    { cbn. rewrite !lookup_insert_ne by done. by rewrite lookup_fmap, Hi. }
    (* the task of i, after the return *)
    assert (Step sess (Run i) c3
              (set_task i (PUpload (CurrentKey sess ei))
                 (called (CallIsExist (CurrentKey sess ei)) (sv_bucket c3)) c3)) as S4.
    { by apply Step_miss. }
    set (c4 := set_task i _ _ c3) in S4.
    assert (Step sess (Run i) c4
              (set_task i PClear
                 (mkBucket (<[CurrentKey sess ei:=Raw (ext_body ei)]>
                              (objects (sv_bucket c4)))
                    (trace (sv_bucket c4) ++ [CallUpload (CurrentKey sess ei)])) c4))
      as S5.
    { eapply Step_upload; try done. cbn. by rewrite lookup_insert_eq. }
    set (c5 := set_task i PClear _ c4) in S5.
    assert (Step sess (Run i) c5
              (mkSaving
                 (set_extent i (mkExtent (ext_Key ei) (ext_body ei) false) (sv_file c5))
                 (<[i:=PDone]> (sv_tasks c5)) (sv_bucket c5) (sv_result c5))) as S6.
    { apply Step_clear; [| done]. cbn. by rewrite lookup_insert_eq. }
    set (c6 := mkSaving _ _ _ _) in S6.
    cbn zeta.
    rewrite (run_cons_Step _ _ _ _ _ S4), (run_cons_Step _ _ _ _ _ S5),
      (run_cons_Step _ _ _ _ _ S6).
    split_and!; try done.
    + cbn. by rewrite lookup_insert_eq.
    + cbn. by rewrite lookup_insert_eq.
Qed.

Lemma Save_fail_fast_witness :
  let c := File_Save faulty_session [Run 0; Run 0; Recv 0] file_two empty_bucket in
  let c' := run faulty_session [Run 1; Run 1; Run 1] c in
  (sv_result c = Some (Some (ErrStore "upload failed"))
   ∧ sv_tasks c !! 1 = Some PStart
   ∧ file_Extent (sv_file c) !! 1
     = Some (mkExtent "" (String.list_byte_of_string "good") true)
   ∧ objects (sv_bucket c) = objects empty_bucket)
  ∧ (sv_result c' = Some (Some (ErrStore "upload failed"))
     ∧ file_Extent (sv_file c') !! 1
       = Some (mkExtent "" (String.list_byte_of_string "good") false)
     ∧ objects (sv_bucket c') !! "good"%string
       = Some (Raw (String.list_byte_of_string "good"))).
Proof.
  destruct (Save_fail_fast faulty_session file_two empty_bucket) as [_ Hfast].
  apply (Hfast 0 1 (mkExtent "" (String.list_byte_of_string "bad") true)
           (mkExtent "" (String.list_byte_of_string "good") true)
           (ErrStore "upload failed"));
    reflexivity || discriminate.
Defined.

(** ** Save on one dirty extent *)

(** C1: Save on a file with one dirty ten-byte extent, recorded under a key
    that is not the address of its body, in an empty bucket.  The body is
    uploaded under its content address, the flag is cleared and the file's
    record is uploaded afterwards; but the record read back names the extent
    by the key it had before, not by the address of the body. *)
Theorem Save_one_dirty_extent :
  let c := File_Save plain_session sched_one file_one empty_bucket in
  sv_result c = Some None
  ∧ trace (sv_bucket c)
    = [CallIsExist (KeyGen plain_session body10);
       CallUpload (KeyGen plain_session body10); CallUploadWithCache "f"]
  ∧ objects (sv_bucket c) !! KeyGen plain_session body10 = Some (Raw body10)
  ∧ ext_dirty <$> file_Extent (sv_file c) !! 0 = Some false
  ∧ (∃ o', load_doc plain_session "f" (sv_bucket c) ≫= unmarshal_File = Some o'
           ∧ ext_Key <$> file_Extent o' !! 0 = Some "stale"%string)
  ∧ KeyGen plain_session body10 ≠ "stale"%string.
Proof.
  cbn zeta. split_and!; try reflexivity.
  - eexists. split; [vm_compute; reflexivity |]. reflexivity.
  - vm_compute. discriminate.
Qed.

(** C2: Save on the same file when the body is already in the bucket under
    its content address.  IsExist answers true and no Upload is made, Save
    returns nil; the extent is still dirty afterwards and still has the key
    it had before. *)
Theorem Save_dedup_hit :
  let c := File_Save plain_session [Run 0; Finish] file_one bucket_with_body in
  sv_result c = Some None
  ∧ trace (sv_bucket c)
    = [CallIsExist (KeyGen plain_session body10); CallUploadWithCache "f"]
  ∧ file_Extent (sv_file c) !! 0 = Some (mkExtent "stale" body10 true)
  ∧ ∀ i, task_step plain_session i c = None.
Proof.
  cbn zeta. split_and!; try reflexivity.
  by apply (Save_nil_all_done plain_session [Run 0; Finish] file_one bucket_with_body).
Qed.

(** Two extents with the same bytes, saved by one Save: when both tasks ask
    IsExist before either uploads, the body is uploaded twice. *)
Lemma Save_twins_upload_twice :
  let c := File_Save plain_session [Run 0; Run 1; Run 0; Run 1; Run 0; Run 1; Finish]
             file_twins empty_bucket in
  sv_result c = Some None
  ∧ count_calls (CallUpload (KeyGen plain_session body10)) (trace (sv_bucket c)) = 2%nat.
Proof. cbn zeta. split; reflexivity. Qed.

(** C3: the extent of the file above satisfies the invariant before Save (it
    is dirty) and not after: Save leaves it clean, with its body loaded,
    under a key that is not the address of that body. *)
Theorem Save_breaks_ext_inv :
  let c := File_Save plain_session sched_one file_one empty_bucket in
  (∀ i e, file_Extent file_one !! i = Some e → ext_inv plain_session e)
  ∧ sv_result c = Some None
  ∧ ∃ e, file_Extent (sv_file c) !! 0 = Some e ∧ ¬ ext_inv plain_session e.
Proof.
  cbn zeta. split_and!.
  - intros i e. unfold file_one. cbn. intros He.
    apply lookup_singleton_Some in He as [_ <-]. by intros Hd.
  - reflexivity.
  - eexists. split; [reflexivity |].
    intros Hinv. specialize (Hinv eq_refl). cbn in Hinv.
    assert (KeyGen plain_session body10 = "stale"%string) as Hk
      by (apply Hinv; discriminate).
    vm_compute in Hk. discriminate.
Qed.

(** ** Save with exactly one failing upload *)

Section Partial_failure.
Context (sess : Session) (o : File) (b : Bucket) (j : Z) (err : error).
Hypothesis Hone : one_failing_upload sess o b j err.

Lemma pf_inv_begin : pf_inv sess o b j err (Save_begin o b).
Proof.
  split; cbn; try done; [| by left].
  intros i e0 He0. exists e0, PStart. split_and!; try done.
  - by rewrite lookup_fmap, He0.
  - cbn. split; [by eapply ofu_dirty | by eapply ofu_absent].
Qed.

(** The task of [i0] moves to [p'], possibly writing [objs']; the other
    tasks do not see it when no object under their address changes. *)
Lemma pf_tasks_update c i0 (e' : Extent) p' (exts' : gmap Z Extent)
    (tasks' : gmap Z pc) (objs' : gmap string Object) :
  (∀ i e0, file_Extent o !! i = Some e0 →
     ∃ e p, file_Extent (sv_file c) !! i = Some e ∧ sv_tasks c !! i = Some p
            ∧ ext_body e = ext_body e0
            ∧ pf_task_ok sess j err i e0 e p (objects (sv_bucket c))) →
  (∀ i, i ≠ i0 → exts' !! i = file_Extent (sv_file c) !! i) →
  (∀ i, i ≠ i0 → tasks' !! i = sv_tasks c !! i) →
  (∀ i e0, i ≠ i0 → file_Extent o !! i = Some e0 →
     objs' !! CurrentKey sess e0 = objects (sv_bucket c) !! CurrentKey sess e0) →
  exts' !! i0 = Some e' → tasks' !! i0 = Some p' →
  (∀ e0, file_Extent o !! i0 = Some e0 →
     ext_body e' = ext_body e0 ∧ pf_task_ok sess j err i0 e0 e' p' objs') →
  ∀ i e0, file_Extent o !! i = Some e0 →
    ∃ e p, exts' !! i = Some e ∧ tasks' !! i = Some p
           ∧ ext_body e = ext_body e0
           ∧ pf_task_ok sess j err i e0 e p objs'.
Proof.
  intros Hold Hexts Htasks Hobjs He' Hp' Hnew i e0 He0.
  destruct (decide (i = i0)) as [-> | Hne].
  - exists e', p'. destruct (Hnew e0 He0). by split_and!.
  - destruct (Hold i e0 He0) as (e & p & He & Hp & Hb & Hok).
    exists e, p. rewrite Hexts, Htasks by done. split_and!; try done.
    specialize (Hobjs i e0 Hne He0).
    destruct p; cbn in *; rewrite ?Hobjs; done.
Qed.

Lemma pf_inv_step a c c' :
  Save_inv sess o c → pf_inv sess o b j err c → Step sess a c c' →
  pf_inv sess o b j err c'.
Proof.
  intros Hsave [Htasks Hres Htrace Hframe] Hstep.
  destruct Hstep as [i e c Hp He Hd | i e c Hp He Hd Hk | i e c Hp He Hd Hk
                    | i key e err' c Hp He Hf | i key e c Hp He Hf
                    | i e c Hp He | i err' c Hr Hp | c merr Hr Hall Hm
                    | c result r b' Hr Hall Hm Hu].
  - (* a clean extent: there is none *)
    destruct (fmap_eq_lookup ext_body _ _ i e (inv_bodies _ _ _ Hsave) He)
      as (e0 & He0 & _).
    destruct (Htasks i e0 He0) as (e1 & p & He1 & Hp1 & _ & Hok).
    simplify_eq. cbn in Hok. destruct Hok. congruence.
  - (* a dedup hit: the address is absent *)
    destruct (fmap_eq_lookup ext_body _ _ i e (inv_bodies _ _ _ Hsave) He)
      as (e0 & He0 & Hbody).
    destruct (Htasks i e0 He0) as (e1 & p & He1 & Hp1 & _ & Hok).
    simplify_eq. cbn in Hok. destruct Hok as [_ Hnone].
    unfold CurrentKey in *. rewrite Hbody in Hnone. rewrite Hnone in Hk.
    by destruct Hk.
  - (* IsExist answered false *)
    split; cbn; try done.
    + eapply (pf_tasks_update c i e); try done.
      * intros. by rewrite lookup_insert_ne.
      * by rewrite lookup_insert_eq.
      * intros e0 He0.
        destruct (Htasks i e0 He0) as (e1 & p & He1 & Hp1 & Hb & Hok).
        simplify_eq. cbn in *. unfold CurrentKey in *. rewrite Hb.
        split; [done |]. split; [done |]. by destruct Hok.
    + intros k Hin. apply Htrace. apply elem_of_app in Hin as [Hin | Hin]; [done |].
      by apply list_elem_of_singleton in Hin.
  - (* the upload fails: this is the task of j *)
    split; cbn; try done.
    + eapply (pf_tasks_update c i e); try done.
      * intros. by rewrite lookup_insert_ne.
      * by rewrite lookup_insert_eq.
      * intros e0 He0.
        destruct (Htasks i e0 He0) as (e1 & p & He1 & Hp1 & Hb & Hok).
        simplify_eq. cbn in *. destruct Hok as [-> _]. split; [done |].
        destruct (decide (i = j)) as [-> | Hne].
        -- destruct (ofu_fails _ _ _ _ _ Hone) as (ej & Hej & Hfj).
           simplify_eq. split; [done |]. congruence.
        -- rewrite (ofu_others _ _ _ _ _ Hone i e0 Hne He0) in Hf. done.
    + intros k Hin. apply Htrace. apply elem_of_app in Hin as [Hin | Hin]; [done |].
      by apply list_elem_of_singleton in Hin.
  - (* the upload succeeds: this is not the task of j *)
    destruct (fmap_eq_lookup ext_body _ _ i e (inv_bodies _ _ _ Hsave) He)
      as (e0 & He0 & Hbody).
    destruct (Htasks i e0 He0) as (e1 & p & He1 & Hp1 & _ & Hok).
    simplify_eq. cbn in Hok. destruct Hok as [-> Hnone].
    assert (i ≠ j) as Hij.
    { intros ->. destruct (ofu_fails _ _ _ _ _ Hone) as (ej & Hej & Hfj).
      simplify_eq; congruence. }
    split; cbn; try done.
    + eapply (pf_tasks_update c i e); try done.
      * intros. by rewrite lookup_insert_ne.
      * intros i1 e1 Hne He1. rewrite lookup_insert_ne; [done |].
        by eapply (ofu_distinct _ _ _ _ _ Hone i i1).
      * by rewrite lookup_insert_eq.
      * intros e0' He0'. simplify_eq. cbn.
        rewrite lookup_insert_eq, Hbody. done.
    + intros k Hin. apply Htrace. apply elem_of_app in Hin as [Hin | Hin]; [done |].
      by apply list_elem_of_singleton in Hin.
    + intros k Hk. rewrite lookup_insert_ne; [by apply Hframe |].
      by apply (Hk i e0).
  - (* the flag is cleared *)
    split; cbn; try done.
    eapply (pf_tasks_update c i (mkExtent (ext_Key e) (ext_body e) false)); try done.
    + intros. by rewrite lookup_insert_ne.
    + intros. by rewrite lookup_insert_ne.
    + by rewrite lookup_insert_eq.
    + by rewrite lookup_insert_eq.
    + intros e0 He0.
      destruct (Htasks i e0 He0) as (e1 & p & He1 & Hp1 & Hb & Hok).
      simplify_eq. cbn in *. split; [done |]. by destruct Hok.
  - (* Save receives the error: it is the error of j *)
    assert (∃ e0, file_Extent o !! i = Some e0) as [e0 He0].
    { apply elem_of_dom.
      rewrite <- (dom_fmap_L ext_Key), <- (inv_keys _ _ _ Hsave), dom_fmap_L.
      rewrite <- (inv_dom _ _ _ Hsave). apply elem_of_dom. eauto. }
    destruct (Htasks i e0 He0) as (e1 & p & He1 & Hp1 & Hb & Hok).
    simplify_eq. cbn in Hok. destruct Hok as [-> ->].
    split; cbn; try done; [| by right].
    eapply (pf_tasks_update c j e1); try done.
    * intros. by rewrite lookup_insert_ne.
    * by rewrite lookup_insert_eq.
    * intros e0' He0'. by simplify_eq.
  - (* done is never closed: the task of j does not call wg.Done() *)
    exfalso. destruct (ofu_fails _ _ _ _ _ Hone) as (ej & Hej & _).
    destruct (Htasks j ej Hej) as (e1 & p & He1 & Hp1 & _ & Hok).
    rewrite (Hall j p Hp1) in Hok. cbn in Hok. by destruct Hok.
  - exfalso. destruct (ofu_fails _ _ _ _ _ Hone) as (ej & Hej & _).
    destruct (Htasks j ej Hej) as (e1 & p & He1 & Hp1 & _ & Hok).
    rewrite (Hall j p Hp1) in Hok. cbn in Hok. by destruct Hok.
Qed.

Lemma pf_inv_run sched c :
  Save_inv sess o c ∧ pf_inv sess o b j err c →
  Save_inv sess o (run sess sched c) ∧ pf_inv sess o b j err (run sess sched c).
Proof.
  apply (run_invariant sess (λ c, Save_inv sess o c ∧ pf_inv sess o b j err c)).
  intros a c1 c2 [H1 H2] Hstep. split.
  - by eapply Save_inv_step.
  - by eapply pf_inv_step.
Qed.

Lemma pf_inv_Save sched : pf_inv sess o b j err (File_Save sess sched o b).
Proof. apply pf_inv_run. split; [apply Save_inv_begin | apply pf_inv_begin]. Qed.
End Partial_failure.

(** C4, as stated, fails: with two dirty extents of which the one at index 0
    cannot be uploaded, Save returns the error as soon as that task has
    failed; the extent at index 1 is still dirty then. *)
Lemma Save_partial_failure_not_awaited :
  ¬ partial_failure_claim faulty_session file_two empty_bucket 0.
Proof.
  intros Hclaim. specialize (Hclaim sched_fail_first). cbn zeta in Hclaim.
  destruct Hclaim as (_ & Hothers & _); [vm_compute; eauto |].
  destruct (Hothers 1 (mkExtent "" (String.list_byte_of_string "good") true))
    as [Hd _]; [done | reflexivity | discriminate].
Qed.

(** C4, amended: all extents dirty, their content addresses pairwise distinct
    and absent from the bucket, one upload failing with [err].  Along every
    schedule Save returns nothing but [err], and it does return it; no
    metadata upload is made, and the object under the file's key is the one
    from before when no extent body is addressed by that key; every other
    extent keeps its body, and once its own task has finished it is clean
    with its body in the bucket under its content address.  (That task need
    not have finished when Save returns.) *)
Theorem Save_partial_failure (sess : Session) (o : File) (b : Bucket) (j : Z)
    (err : error) (sched : list Action) :
  one_failing_upload sess o b j err →
  let c := File_Save sess sched o b in
  (sv_result c = None ∨ sv_result c = Some (Some err))
  ∧ (∃ sched', sv_result (run sess sched' c) = Some (Some err))
  ∧ (∀ k, CallUploadWithCache k ∈ trace (sv_bucket c) →
          CallUploadWithCache k ∈ trace b)
  ∧ ((∀ i e, file_Extent o !! i = Some e → CurrentKey sess e ≠ file_Key o) →
     objects (sv_bucket c) !! file_Key o = objects b !! file_Key o)
  ∧ (∀ i e, i ≠ j → file_Extent o !! i = Some e →
       ∃ e', file_Extent (sv_file c) !! i = Some e'
             ∧ ext_body e' = ext_body e
             ∧ (task_step sess i c = None →
                ext_dirty e' = false
                ∧ objects (sv_bucket c) !! CurrentKey sess e
                  = Some (Raw (ext_body e)))).
Proof.
  intros Hone c.
  pose proof (Save_inv_Save sess o sched b) as Hsave.
  pose proof (pf_inv_Save sess o b j err Hone sched) as Hpf.
  fold c in Hsave, Hpf. split_and!.
  - apply (pf_result _ _ _ _ _ _ Hpf).
  - destruct (Save_returns_from sess o c Hsave) as [sched' [r Hr]].
    exists sched'.
    destruct (pf_inv_run sess o b j err Hone sched' c (conj Hsave Hpf)) as [_ Hpf'].
    destruct (pf_result _ _ _ _ _ _ Hpf') as [Hn | Hs]; [congruence | done].
  - apply (pf_trace _ _ _ _ _ _ Hpf).
  - apply (pf_frame _ _ _ _ _ _ Hpf).
  - intros i e Hij He.
    destruct (pf_tasks _ _ _ _ _ _ Hpf i e He) as (e' & p & He' & Hp & Hb & Hok).
    exists e'. split_and!; try done.
    unfold task_step. rewrite Hp, He'.
    destruct p as [| key | | err' | |]; cbn in Hok.
    + destruct (negb (ext_dirty e')); [done |].
      destruct (IsExist _ _) as [[] b1]; done.
    + destruct (Upload _ _ _ _) as [[err' |] b1]; done.
    + done.
    + by destruct Hok.
    + intros _. by destruct Hok as (_ & Hd & Hk).
    + done.
Qed.

Lemma file_two_one_failing :
  one_failing_upload faulty_session file_two empty_bucket 0 (ErrStore "upload failed").
Proof.
  assert (∀ i e, file_Extent file_two !! i = Some e →
            (i = 0 ∧ e = mkExtent "" (String.list_byte_of_string "bad") true)
            ∨ (i = 1 ∧ e = mkExtent "" (String.list_byte_of_string "good") true))
    as Hcases.
  { intros i e. unfold file_two. cbn. intros He.
    apply lookup_insert_Some in He as [[<- <-] | [Hne He]]; [by left |].
    apply lookup_singleton_Some in He as [<- <-]. by right. }
  split.
  - intros i e He. by destruct (Hcases i e He) as [[-> ->] | [-> ->]].
  - intros i e He. by destruct (Hcases i e He) as [[-> ->] | [-> ->]].
  - intros i1 i2 e1 e2 Hne H1 H2.
    destruct (Hcases i1 e1 H1) as [[-> ->] | [-> ->]];
      destruct (Hcases i2 e2 H2) as [[-> ->] | [-> ->]]; try done.
  - eexists. split; reflexivity.
  - intros i e Hne He. by destruct (Hcases i e He) as [[-> ->] | [-> ->]].
Qed.

Lemma Save_partial_failure_witness :
  let c := File_Save faulty_session sched_fail_first file_two empty_bucket in
  (sv_result c = None ∨ sv_result c = Some (Some (ErrStore "upload failed")))
  ∧ ∃ sched', sv_result (run faulty_session sched' c)
              = Some (Some (ErrStore "upload failed")).
Proof.
  destruct (Save_partial_failure faulty_session file_two empty_bucket 0
              (ErrStore "upload failed") sched_fail_first file_two_one_failing)
    as (H1 & H2 & _).
  split; [exact H1 | exact H2].
Defined.

(** ** Save, then load *)

Section File_record.
Context (sess : Session) (o : File) (b : Bucket).
Hypothesis Hfresh : objects b !! file_Key o = None.
Hypothesis Hkeys : ∀ i e, file_Extent o !! i = Some e → CurrentKey sess e ≠ file_Key o.

Lemma rt_inv_step a c c' :
  Save_inv sess o c → rt_inv o c → Step sess a c c' → rt_inv o c'.
Proof.
  intros Hsave Hrt Hstep. unfold rt_inv in *.
  destruct Hstep as [i e c Hp He Hd | i e c Hp He Hd Hk | i e c Hp He Hd Hk
                    | i key e err' c Hp He Hf | i key e c Hp He Hf
                    | i e c Hp He | i err' c Hr Hp | c merr Hr Hall Hm
                    | c result r b' Hr Hall Hm Hu];
    cbn; try done.
  - (* an upload writes under the address of a body, not under the file's key *)
    pose proof (inv_result _ _ _ Hsave) as Hres.
    destruct (sv_result c) as [[err' |] |]; cbn in Hres; [done | |].
    + destruct Hres as [[[x Hx] _] | Hall]; [done |].
      by specialize (Hall i _ Hp).
    + rewrite lookup_insert_ne; [done |].
      destruct (inv_upload _ _ _ Hsave i key Hp) as (e1 & He1 & -> & _).
      destruct (fmap_eq_lookup ext_body _ _ i e1 (inv_bodies _ _ _ Hsave) He1)
        as (e0 & He0 & Hbody).
      unfold CurrentKey. rewrite <- Hbody. by apply (Hkeys i e0).
  - (* no flag is cleared after a nil return *)
    pose proof (inv_result _ _ _ Hsave) as Hres.
    destruct (sv_result c) as [[err' |] |]; cbn in Hres; [done | | done].
    destruct Hres as [[[x Hx] _] | Hall]; [done |].
    by specialize (Hall i _ Hp).
  - (* the record is written *)
    rewrite Hr in Hrt. destruct r as [err' |]; [done |].
    rewrite <- (inv_Key _ _ _ Hsave) in *.
    exists result. split; [done |]. by eapply UploadWithCache_fresh.
Qed.

Lemma rt_inv_Save sched : rt_inv o (File_Save sess sched o b).
Proof.
  apply (run_invariant sess (λ c, Save_inv sess o c ∧ rt_inv o c)).
  - intros a c1 c2 [H1 H2] Hstep. split.
    + by eapply Save_inv_step.
    + by eapply rt_inv_step.
  - split; [apply Save_inv_begin | done].
Qed.
End File_record.


Lemma valid_File_Save (sess : Session) (o : File) (c : Saving) :
  Save_inv sess o c → valid_File o → valid_File (sv_file c).
Proof.
  intros Hsave [Hk Hexts]. split; [by rewrite (inv_Key _ _ _ Hsave) |].
  intros i e He.
  destruct (fmap_eq_lookup ext_Key _ _ i e (inv_keys _ _ _ Hsave) He)
    as (e0 & He0 & Hkey).
  rewrite <- Hkey. by apply (Hexts i e0).
Qed.

Lemma Directory_Save_nil sess o b b' :
  Directory_Save sess o b = (None, b') →
  ∃ result, marshal_Directory o = inr result
            ∧ UploadWithCache sess (dir_Key o) (Doc result) b = (None, b').
Proof.
  unfold Directory_Save. destruct (marshal_Directory o) as [err | result]; [done |].
  intros Hu. by exists result.
Qed.

Lemma SymLink_Save_nil sess o b b' :
  SymLink_Save sess o b = (None, b') →
  ∃ result, marshal_SymLink o = inr result
            ∧ UploadWithCache sess (link_Key o) (Doc result) b = (None, b').
Proof.
  unfold SymLink_Save. destruct (marshal_SymLink o) as [err | result]; [done |].
  intros Hu. by exists result.
Qed.


Lemma empty_dir_record_marshal : marshal_Directory empty_dir = inr empty_dir_record.
Proof. reflexivity. Qed.

Lemma dir_with_child_valid : valid_Directory dir_with_child.
Proof.
  split; [reflexivity |]. intros n k. unfold dir_with_child. cbn.
  intros Hnk. apply lookup_singleton_Some in Hnk as [<- <-]. by split.
Qed.

Lemma file_one_lookup i e :
  file_Extent file_one !! i = Some e → i = 0 ∧ e = mkExtent "stale" body10 true.
Proof.
  unfold file_one. cbn. intros He. by apply lookup_singleton_Some in He as [<- <-].
Qed.

Lemma file_one_valid : valid_File file_one.
Proof.
  split; [reflexivity |]. intros i e He. by apply file_one_lookup in He as [_ ->].
Qed.


(** ** What Save does to the store *)

Lemma Save_inv_origin (sess : Session) (o : File) (c : Saving) i e :
  Save_inv sess o c → file_Extent (sv_file c) !! i = Some e →
  ∃ e0, file_Extent o !! i = Some e0 ∧ ext_body e0 = ext_body e
        ∧ ext_Key e0 = ext_Key e ∧ (ext_dirty e = true → ext_dirty e0 = true).
Proof.
  intros Hsave He.
  destruct (fmap_eq_lookup ext_body _ _ i e (inv_bodies _ _ _ Hsave) He)
    as (e0 & He0 & Hbody).
  destruct (fmap_eq_lookup ext_Key _ _ i e (inv_keys _ _ _ Hsave) He)
    as (e0' & He0' & Hkey).
  simplify_eq. exists e0. split_and!; try done.
  intros Hd. destruct (ext_dirty e0) eqn:Hd0; [done |].
  rewrite (inv_clean _ _ _ Hsave i e0 e He0 He Hd0) in Hd. done.
Qed.

Lemma Save_inv_upload_origin (sess : Session) (o : File) (c : Saving) i key :
  Save_inv sess o c → sv_tasks c !! i = Some (PUpload key) →
  ∃ e0, file_Extent o !! i = Some e0 ∧ ext_dirty e0 = true
        ∧ key = CurrentKey sess e0.
Proof.
  intros Hsave Hp.
  destruct (inv_upload _ _ _ Hsave i key Hp) as (e & He & -> & Hd).
  destruct (Save_inv_origin sess o c i e Hsave He) as (e0 & He0 & Hb & _ & Hd0).
  exists e0. split_and!; [done | by apply Hd0 |].
  unfold CurrentKey. by rewrite Hb.
Qed.

Lemma UploadWithCache_objects sess k x b r b' :
  UploadWithCache sess k x b = (r, b') →
  trace b' = trace b ++ [CallUploadWithCache k]
  ∧ ∀ k', objects b' !! k' = objects b !! k'
          ∨ (k' = k ∧ objects b !! k = None ∧ r = None ∧ objects b' !! k = Some x).
Proof.
  unfold UploadWithCache. cbn.
  destruct (objects b !! k) as [y |] eqn:Hk.
  - intros [= <- <-]. cbn. split; [done |]. intros k'. by left.
  - destruct (cache_upload_fault sess k) as [err |].
    + intros [= <- <-]. cbn. split; [done |]. intros k'. by left.
    + intros [= <- <-]. cbn. split; [done |]. intros k'.
      destruct (decide (k' = k)) as [-> | Hne].
      * right. by rewrite lookup_insert_eq.
      * left. by rewrite lookup_insert_ne.
Qed.

Section Save_store.
Context (sess : Session) (o : File) (b : Bucket).

Lemma store_inv_begin : store_inv sess o b (Save_begin o b).
Proof.
  split; cbn; try done.
  - intros i key. rewrite lookup_fmap. by destruct (file_Extent o !! i).
  - exists []. split; [done |]. left. by rewrite app_nil_r.
Qed.

(** A task step that appends the store call [r] and leaves the objects. *)
Lemma si_calls_append c r (tasks' : gmap Z pc) (res' : option go_error) :
  extent_call sess o b r →
  (∃ i p, sv_tasks c !! i = Some p ∧ p ≠ PDone) →
  (∃ t, Forall (extent_call sess o b) t
        ∧ (trace (sv_bucket c) = trace b ++ t
           ∨ (trace (sv_bucket c) = trace b ++ t ++ [CallUploadWithCache (file_Key o)]
              ∧ map_Forall (λ _ p, p = PDone) (sv_tasks c)
              ∧ is_Some (sv_result c)))) →
  ∃ t, Forall (extent_call sess o b) t
       ∧ (trace (sv_bucket c) ++ [r] = trace b ++ t
          ∨ (trace (sv_bucket c) ++ [r]
             = trace b ++ t ++ [CallUploadWithCache (file_Key o)]
             ∧ map_Forall (λ _ p, p = PDone) tasks'
             ∧ is_Some res')).
Proof.
  intros Hr (i & p & Hp & Hnd) (t & Ht & [Htr | (_ & Hall & _)]).
  - exists (t ++ [r]). split.
    + apply Forall_app. split; [done |]. by apply Forall_singleton.
    + left. by rewrite Htr, app_assoc.
  - exfalso. apply Hnd. by apply (Hall i p).
Qed.

Lemma si_calls_same c (tasks' : gmap Z pc) :
  (∃ i p, sv_tasks c !! i = Some p ∧ p ≠ PDone) →
  (∃ t, Forall (extent_call sess o b) t
        ∧ (trace (sv_bucket c) = trace b ++ t
           ∨ (trace (sv_bucket c) = trace b ++ t ++ [CallUploadWithCache (file_Key o)]
              ∧ map_Forall (λ _ p, p = PDone) (sv_tasks c)
              ∧ is_Some (sv_result c)))) →
  ∃ t, Forall (extent_call sess o b) t
       ∧ (trace (sv_bucket c) = trace b ++ t
          ∨ (trace (sv_bucket c) = trace b ++ t ++ [CallUploadWithCache (file_Key o)]
             ∧ map_Forall (λ _ p, p = PDone) tasks'
             ∧ is_Some (sv_result c))).
Proof.
  intros (i & p & Hp & Hnd) (t & Ht & [Htr | (_ & Hall & _)]).
  - exists t. split; [done |]. by left.
  - exfalso. apply Hnd. by apply (Hall i p).
Qed.

Lemma si_upload_insert c i p' :
  (∀ key, p' = PUpload key → objects b !! key = None) →
  (∀ i key, sv_tasks c !! i = Some (PUpload key) → objects b !! key = None) →
  ∀ i1 key, <[i:=p']> (sv_tasks c) !! i1 = Some (PUpload key) → objects b !! key = None.
Proof.
  intros Hnew Hold i1 key. destruct (decide (i = i1)) as [<- | Hne].
  - rewrite lookup_insert_eq. intros [= ->]. by apply Hnew.
  - rewrite lookup_insert_ne by done. apply Hold.
Qed.

Lemma store_inv_step a c c' :
  Save_inv sess o c → store_inv sess o b c → Step sess a c c' →
  store_inv sess o b c'.
Proof.
  intros Hsave [Hold Hup Hframe Hcalls] Hstep.
  destruct Hstep as [i e c Hp He Hd | i e c Hp He Hd Hk | i e c Hp He Hd Hk
                    | i key e err' c Hp He Hf | i key e c Hp He Hf
                    | i e c Hp He | i err' c Hr Hp | c merr Hr Hall Hm
                    | c result r b' Hr Hall Hm Hu].
  - split; cbn; try done.
    + by apply si_upload_insert.
    + eapply si_calls_same; [| done]. by exists i, PStart.
  - destruct (Save_inv_origin sess o c i e Hsave He) as (e0 & He0 & Hb & _ & Hd0).
    split; cbn; try done.
    + by apply si_upload_insert.
    + eapply si_calls_append; try done; [| by exists i, PStart].
      exists i, e0. split_and!; [done | by apply Hd0 |].
      left. unfold CurrentKey. by rewrite Hb.
  - destruct (Save_inv_origin sess o c i e Hsave He) as (e0 & He0 & Hb & _ & Hd0).
    split; cbn; try done.
    + apply si_upload_insert; [| done]. intros key [= <-].
      destruct (objects b !! CurrentKey sess e) as [x |] eqn:Hbk; [| done].
      by rewrite (Hold _ _ Hbk) in Hk.
    + eapply si_calls_append; try done; [| by exists i, PStart].
      exists i, e0. split_and!; [done | by apply Hd0 |].
      left. unfold CurrentKey. by rewrite Hb.
  - destruct (Save_inv_upload_origin sess o c i key Hsave Hp) as (e0 & He0 & Hd0 & ->).
    split; cbn; try done.
    + by apply si_upload_insert.
    + eapply si_calls_append; try done;
        [| by exists i, (PUpload (CurrentKey sess e0))].
      exists i, e0. split_and!; try done. right. split; [done |]. by eapply Hup.
  - destruct (Save_inv_upload_origin sess o c i key Hsave Hp) as (e0 & He0 & Hd0 & ->).
    pose proof (Hup i _ Hp) as Habsent.
    split; cbn.
    + intros k x Hk. rewrite lookup_insert_ne; [by apply Hold |].
      intros <-. congruence.
    + by apply si_upload_insert.
    + intros k Hne Hk. rewrite lookup_insert_ne; [by apply Hframe |].
      by apply (Hk i e0).
    + eapply si_calls_append; try done;
        [| by exists i, (PUpload (CurrentKey sess e0))].
      exists i, e0. split_and!; try done. right. by split.
  - split; cbn; try done.
    + by apply si_upload_insert.
    + eapply si_calls_same; [| done]. by exists i, PClear.
  - split; cbn; try done.
    + by apply si_upload_insert.
    + destruct Hcalls as (t & Ht & [Htr | (_ & Hall' & _)]).
      * exists t. split; [done |]. by left.
      * by specialize (Hall' i _ Hp).
  - (* json.Marshal failed: no store call *)
    split; cbn; try done.
    destruct Hcalls as (t & Ht & [Htr | (_ & _ & [x Hx])]); [| congruence].
    exists t. split; [done |]. by left.
  - destruct (UploadWithCache_objects _ _ _ _ _ _ Hu) as [Htr Hobjs].
    split; cbn; try done.
    + intros k x Hk. destruct (Hobjs k) as [-> | (-> & Hnone & _ & _)];
        [by apply Hold |].
      rewrite <- (inv_Key _ _ _ Hsave) in *.
      rewrite (Hold _ _ Hk) in Hnone. done.
    + intros k Hne Hk. destruct (Hobjs k) as [-> | (-> & _)];
        [by apply Hframe |].
      by rewrite (inv_Key _ _ _ Hsave) in Hne.
    + destruct Hcalls as (t & Ht & [Htr' | (_ & _ & [x Hx])]); [| congruence].
      exists t. split; [done |]. right. split_and!; [| done | by eauto].
      by rewrite Htr, Htr', (inv_Key _ _ _ Hsave), app_assoc.
Qed.

Lemma store_inv_Save sched : store_inv sess o b (File_Save sess sched o b).
Proof.
  apply (run_invariant sess (λ c, Save_inv sess o c ∧ store_inv sess o b c)).
  - intros a c1 c2 [H1 H2] Hstep. split.
    + by eapply Save_inv_step.
    + by eapply store_inv_step.
  - split; [apply Save_inv_begin | apply store_inv_begin].
Qed.
End Save_store.

Section Save_errors.
Context (sess : Session) (o : File).

Lemma error_inv_begin b : error_inv sess o (Save_begin o b).
Proof.
  split; cbn; [| done].
  intros i err. rewrite lookup_fmap. by destruct (file_Extent o !! i).
Qed.

Lemma ei_send_insert c i p' :
  (∀ err, p' = PSend err →
     ∃ e, file_Extent o !! i = Some e ∧ ext_dirty e = true
          ∧ upload_fault sess (CurrentKey sess e) = Some err) →
  (∀ i err, sv_tasks c !! i = Some (PSend err) →
     ∃ e, file_Extent o !! i = Some e ∧ ext_dirty e = true
          ∧ upload_fault sess (CurrentKey sess e) = Some err) →
  ∀ i1 err, <[i:=p']> (sv_tasks c) !! i1 = Some (PSend err) →
    ∃ e, file_Extent o !! i1 = Some e ∧ ext_dirty e = true
         ∧ upload_fault sess (CurrentKey sess e) = Some err.
Proof.
  intros Hnew Hold i1 err. destruct (decide (i = i1)) as [<- | Hne].
  - rewrite lookup_insert_eq. intros [= ->]. by apply Hnew.
  - rewrite lookup_insert_ne by done. apply Hold.
Qed.

Lemma error_inv_step a c c' :
  Save_inv sess o c → error_inv sess o c → Step sess a c c' → error_inv sess o c'.
Proof.
  intros Hsave [Hsend Hres] Hstep.
  destruct Hstep as [i e c Hp He Hd | i e c Hp He Hd Hk | i e c Hp He Hd Hk
                    | i key e err' c Hp He Hf | i key e c Hp He Hf
                    | i e c Hp He | i err' c Hr Hp | c merr Hr Hall Hm
                    | c result r b' Hr Hall Hm Hu];
    try (split; cbn; [by apply ei_send_insert | done]).
  - destruct (Save_inv_upload_origin sess o c i key Hsave Hp) as (e0 & He0 & Hd0 & ->).
    split; cbn; [| done]. apply ei_send_insert; [| done].
    intros err [= <-]. by exists e0.
  - split; cbn; [by apply ei_send_insert |].
    intros err [= <-]. left. destruct (Hsend i err' Hp) as (e & He & Hd & Hf).
    by exists i, e.
  - split; cbn; [done |]. intros err [= <-]. right. left.
    revert Hm. unfold marshal_File. rewrite (inv_Meta _ _ _ Hsave).
    by destruct (marshal_Meta (file_Meta o)).
  - split; cbn; [done |]. intros err [= ->]. right. right.
    revert Hu. unfold UploadWithCache. cbn.
    destruct (objects (sv_bucket c) !! file_Key (sv_file c)); [done |].
    rewrite (inv_Key _ _ _ Hsave).
    destruct (cache_upload_fault sess (file_Key o)); [| done]. by intros [= -> _].
Qed.

Lemma error_inv_Save sched b : error_inv sess o (File_Save sess sched o b).
Proof.
  apply (run_invariant sess (λ c, Save_inv sess o c ∧ error_inv sess o c)).
  - intros a c1 c2 [H1 H2] Hstep. split.
    + by eapply Save_inv_step.
    + by eapply error_inv_step.
  - split; [apply Save_inv_begin | apply error_inv_begin].
Qed.
End Save_errors.

Lemma count_calls_app r t1 t2 :
  count_calls r (t1 ++ t2) = (count_calls r t1 + count_calls r t2)%nat.
Proof. unfold count_calls. by rewrite filter_app, length_app. Qed.

Lemma count_calls_none r t :
  Forall (λ x, x ≠ r) t → count_calls r t = 0%nat.
Proof.
  unfold count_calls. induction 1 as [| x t Hx Ht IH]; [done |].
  by rewrite filter_cons_False.
Qed.

(** X1: Save never removes or overwrites an object that was in the bucket
    when it began: along every schedule such an object is still stored,
    unchanged, under its key. *)
Theorem Save_keeps_stored_objects (sess : Session) (sched : list Action) (o : File)
    (b : Bucket) (k : string) (x : Object) :
  objects b !! k = Some x →
  objects (sv_bucket (File_Save sess sched o b)) !! k = Some x.
Proof. apply (si_old sess o b), store_inv_Save. Qed.

Lemma Save_keeps_stored_objects_witness :
  objects (sv_bucket (File_Save plain_session [Run 0; Finish] file_one bucket_with_body))
    !! String.string_of_list_byte body10 = Some (Raw body10).
Proof.
  apply (Save_keeps_stored_objects plain_session [Run 0; Finish] file_one
           bucket_with_body).
  reflexivity.
Defined.

(** X2: Save writes nowhere else: an object under a key that is neither the
    file's own key nor the content address of the body of one of its dirty
    extents is, along every schedule, as it was when Save began (stored
    unchanged, or still absent). *)
Theorem Save_store_frame (sess : Session) (sched : list Action) (o : File)
    (b : Bucket) (k : string) :
  k ≠ file_Key o →
  (∀ i e, file_Extent o !! i = Some e → ext_dirty e = true → CurrentKey sess e ≠ k) →
  objects (sv_bucket (File_Save sess sched o b)) !! k = objects b !! k.
Proof. apply (si_frame sess o b), store_inv_Save. Qed.

Lemma Save_store_frame_witness :
  objects (sv_bucket (File_Save plain_session sched_one file_one empty_bucket))
    !! "other"%string
  = objects empty_bucket !! "other"%string.
Proof.
  apply (Save_store_frame plain_session sched_one file_one empty_bucket "other").
  - discriminate.
  - intros i e He _. unfold file_one in He. cbn in He.
    apply lookup_singleton_Some in He as [_ <-]. vm_compute. discriminate.
Defined.

(** X3: the store calls of a Save, in order.  They are presence checks and
    uploads for content addresses of bodies of dirty extents of the file (an
    upload only for an address that was absent when Save began), followed by
    at most one cache-aware upload under the file's key; that upload is the
    last call, and it is made only when every task has called wg.Done() and
    Save returns. *)
Theorem Save_store_calls (sess : Session) (sched : list Action) (o : File) (b : Bucket) :
  let c := File_Save sess sched o b in
  ∃ t, Forall (extent_call sess o b) t
       ∧ (trace (sv_bucket c) = trace b ++ t
          ∨ (trace (sv_bucket c) = trace b ++ t ++ [CallUploadWithCache (file_Key o)]
             ∧ map_Forall (λ _ p, p = PDone) (sv_tasks c)
             ∧ is_Some (sv_result c))).
Proof. apply (si_calls sess o b), store_inv_Save. Qed.

(** X4: content that is already in the bucket is not uploaded again: for a
    key present when Save began, Save makes no Upload call, along any
    schedule. *)
Theorem Save_no_upload_of_present (sess : Session) (sched : list Action) (o : File)
    (b : Bucket) (k : string) :
  is_Some (objects b !! k) →
  count_calls (CallUpload k) (trace (sv_bucket (File_Save sess sched o b)))
  = count_calls (CallUpload k) (trace b).
Proof.
  intros [x Hk].
  destruct (si_calls sess o b _ (store_inv_Save sess o b sched)) as (t & Ht & Htr).
  assert (count_calls (CallUpload k) t = 0%nat) as Hzero.
  { apply count_calls_none. eapply Forall_impl; [exact Ht |].
    intros r (i & e & He & Hd & [-> | [-> Hnone]]); [done |].
    intros [= Heq]. rewrite Heq in Hnone. congruence. }
  destruct Htr as [-> | [-> _]]; rewrite !count_calls_app, Hzero; [lia |].
  rewrite (count_calls_none _ [_]); [lia |].
  apply Forall_singleton. done.
Qed.

Lemma Save_no_upload_of_present_witness :
  count_calls (CallUpload (String.string_of_list_byte body10))
    (trace (sv_bucket (File_Save plain_session [Run 0; Finish] file_one bucket_with_body)))
  = count_calls (CallUpload (String.string_of_list_byte body10)) (trace bucket_with_body).
Proof.
  apply (Save_no_upload_of_present plain_session [Run 0; Finish] file_one
           bucket_with_body).
  vm_compute. eauto.
Defined.

(** X5: Save invents no error: an error it returns is the error of the
    Upload of the body of one of the file's dirty extents, the error of
    json.Marshal on the file (a time of its metadata that cannot be
    written), or the error of the cache-aware upload under the file's key. *)
Theorem Save_error_origin (sess : Session) (sched : list Action) (o : File)
    (b : Bucket) (err : error) :
  sv_result (File_Save sess sched o b) = Some (Some err) →
  (∃ i e, file_Extent o !! i = Some e ∧ ext_dirty e = true
          ∧ upload_fault sess (CurrentKey sess e) = Some err)
  ∨ marshal_Meta (file_Meta o) = inl err
  ∨ cache_upload_fault sess (file_Key o) = Some err.
Proof. apply (ei_result sess o), error_inv_Save. Qed.

Lemma Save_error_origin_witness :
  (∃ i e, file_Extent file_two !! i = Some e ∧ ext_dirty e = true
          ∧ upload_fault faulty_session (CurrentKey faulty_session e)
            = Some (ErrStore "upload failed"))
  ∨ marshal_Meta (file_Meta file_two) = inl (ErrStore "upload failed")
  ∨ cache_upload_fault faulty_session (file_Key file_two)
    = Some (ErrStore "upload failed").
Proof.
  apply (Save_error_origin faulty_session sched_fail_first file_two empty_bucket).
  reflexivity.
Defined.

(** A file whose modification time cannot be written: once the extent is
    flushed Save returns the error of json.Marshal and makes no metadata
    upload. *)
Lemma Save_marshal_error :
  let c := File_Save plain_session sched_one file_bad_time empty_bucket in
  sv_result c
  = Some (Some (ErrMarshal "Time.MarshalJSON: year outside of range [0,9999]"))
  ∧ trace (sv_bucket c)
    = [CallIsExist (KeyGen plain_session body10);
       CallUpload (KeyGen plain_session body10)]
  ∧ objects (sv_bucket c) !! "f"%string = None.
Proof. cbn zeta. split_and!; reflexivity. Qed.

(** ** What Save does to the file *)

(** X6: Save changes nothing of the file but dirty flags, and those only
    from true to false: along every schedule the file has its key, metadata
    and extent size, the same extent indices with the same bodies, and an
    extent that was clean is clean. *)
Theorem Save_file_frame (sess : Session) (sched : list Action) (o : File) (b : Bucket) :
  let c := File_Save sess sched o b in
  file_Key (sv_file c) = file_Key o
  ∧ file_Meta (sv_file c) = file_Meta o
  ∧ file_ExtentSize (sv_file c) = file_ExtentSize o
  ∧ dom (file_Extent (sv_file c)) = dom (file_Extent o)
  ∧ ext_body <$> file_Extent (sv_file c) = ext_body <$> file_Extent o
  ∧ (∀ i e e', file_Extent o !! i = Some e → file_Extent (sv_file c) !! i = Some e' →
       ext_dirty e = false → ext_dirty e' = false).
Proof.
  intros c. subst c. destruct (Save_inv_Save sess o sched b). split_and!; try done.
  rewrite <- (dom_fmap_L ext_Key (file_Extent (sv_file _))).
  rewrite <- (dom_fmap_L ext_Key (file_Extent o)). by f_equal.
Qed.

Lemma Save_inv_clean_extents (sess : Session) (o : File) (c : Saving) :
  Save_inv sess o c →
  (∀ i e, file_Extent o !! i = Some e → ext_dirty e = false) →
  file_Extent (sv_file c) = file_Extent o.
Proof.
  intros Hsave Hclean. apply map_eq. intros i.
  destruct (file_Extent (sv_file c) !! i) as [e' |] eqn:He'.
  - destruct (Save_inv_origin sess o c i e' Hsave He') as (e0 & He0 & Hb & Hk & _).
    rewrite He0. f_equal.
    pose proof (inv_clean _ _ _ Hsave i e0 e' He0 He' (Hclean i e0 He0)) as Hd'.
    pose proof (Hclean i e0 He0) as Hd0.
    destruct e0, e'. cbn in *. congruence.
  - symmetry. apply not_elem_of_dom.
    rewrite <- (dom_fmap_L ext_Key), <- (inv_keys _ _ _ Hsave), dom_fmap_L.
    by apply not_elem_of_dom.
Qed.

(** X7: on a file whose extents are all clean (or that has none) Save asks
    the store nothing about extents: along every schedule the extents are
    untouched, the only store call is the cache-aware upload under the file's
    key, made when Save returns, and no object under another key changes. *)
Theorem Save_clean_file (sess : Session) (sched : list Action) (o : File) (b : Bucket) :
  (∀ i e, file_Extent o !! i = Some e → ext_dirty e = false) →
  let c := File_Save sess sched o b in
  file_Extent (sv_file c) = file_Extent o
  ∧ (trace (sv_bucket c) = trace b
     ∨ (trace (sv_bucket c) = trace b ++ [CallUploadWithCache (file_Key o)]
        ∧ is_Some (sv_result c)))
  ∧ (∀ k, k ≠ file_Key o → objects (sv_bucket c) !! k = objects b !! k).
Proof.
  intros Hclean c.
  pose proof (Save_inv_Save sess o sched b) as Hsave.
  pose proof (store_inv_Save sess o b sched) as Hstore.
  fold c in Hsave, Hstore. split_and!.
  - by apply (Save_inv_clean_extents sess).
  - destruct (si_calls _ _ _ _ Hstore) as (t & Ht & Htr).
    assert (t = []) as ->.
    { destruct t as [| r t]; [done |]. apply Forall_cons in Ht as [Hr _].
      destruct Hr as (i & e & He & Hd & _). rewrite (Hclean i e He) in Hd. done. }
    rewrite app_nil_r in Htr. destruct Htr as [Htr | (Htr & _ & Hr)]; [by left |].
    by right.
  - intros k Hne. apply (si_frame _ _ _ _ Hstore); [done |].
    intros i e He Hd. rewrite (Hclean i e He) in Hd. done.
Qed.

Lemma Save_clean_file_witness :
  file_Extent (sv_file (File_Save plain_session [Run 0; Finish] file_clean empty_bucket))
  = file_Extent file_clean.
Proof.
  apply (Save_clean_file plain_session [Run 0; Finish] file_clean empty_bucket).
  intros i e He. unfold file_clean in He. cbn in He.
  by apply lookup_singleton_Some in He as [_ <-].
Defined.

(** ** Save comes to an end *)

Lemma work_left_begin (o : File) (b : Bucket) :
  work_left (Save_begin o b) = (3 * size (file_Extent o) + 1)%nat.
Proof.
  unfold work_left, Save_begin. cbn. f_equal.
  induction (file_Extent o) as [| i e m Hi Hfold IH] using map_first_key_ind.
  - by rewrite fmap_empty, map_fold_empty, map_size_empty.
  - rewrite fmap_insert, map_size_insert_None by done.
    rewrite map_fold_insert_L.
    + rewrite IH. cbn. lia.
    + intros. lia.
    + by rewrite lookup_fmap, Hi.
Qed.

Lemma run_strict_run (sess : Session) sched c c' :
  run_strict sess sched c = Some c' → run sess sched c = c'.
Proof.
  revert c. induction sched as [| a sched IH]; intros c; cbn.
  - by intros [= <-].
  - destruct (step sess a c) as [c1 |]; [| done]. cbn. apply IH.
Qed.

(** X8: Save comes to an end and is never stuck.  In a run from the start in
    which every action is a step that the goroutines or Save can take, there
    are at most three steps per extent and one for Save; and as long as Save
    has not returned, some step can be taken. *)
Theorem Save_terminates (sess : Session) (sched : list Action) (o : File) (b : Bucket)
    (c : Saving) :
  run_strict sess sched (Save_begin o b) = Some c →
  (length sched ≤ 3 * size (file_Extent o) + 1)%nat
  ∧ (sv_result c = None → ∃ a c', step sess a c = Some c').
Proof.
  intros Hrun. split.
  - apply run_strict_bounded in Hrun. rewrite work_left_begin in Hrun. lia.
  - intros Hr. apply run_strict_run in Hrun as <-.
    destruct (Save_progress sess o _ (Save_inv_Save sess o sched b) Hr)
      as (a & c' & Hstep).
    exists a, c'. by apply step_Step.
Qed.

Lemma Save_terminates_witness :
  (length sched_one ≤ 3 * size (file_Extent file_one) + 1)%nat.
Proof.
  apply (Save_terminates plain_session sched_one file_one empty_bucket
           (File_Save plain_session sched_one file_one empty_bucket)).
  reflexivity.
Defined.



(** ** Save stores the bodies of the dirty extents *)

Section Save_persists.
Context (sess : Session) (o : File) (b : Bucket).
Hypothesis Hcontent : ∀ i e,
  file_Extent o !! i = Some e → ext_dirty e = true →
  objects b !! CurrentKey sess e = None
  ∨ objects b !! CurrentKey sess e = Some (Raw (ext_body e)).
Hypothesis Hcollision : ∀ i1 i2 e1 e2,
  file_Extent o !! i1 = Some e1 → file_Extent o !! i2 = Some e2 →
  ext_dirty e1 = true → ext_dirty e2 = true →
  CurrentKey sess e1 = CurrentKey sess e2 → ext_body e1 = ext_body e2.

Lemma persist_inv_begin : persist_inv sess o (Save_begin o b).
Proof.
  split; cbn.
  - done.
  - intros i e0 p He0 _. rewrite lookup_fmap, He0. cbn.
    intros [= <-] [? | ?]; done.
  - intros i e0 e He0 _ He. congruence.
Qed.

(** The task of [i] moves on without writing an object or an extent. *)
Lemma persist_inv_set_task c i p p' b' :
  objects b' = objects (sv_bucket c) →
  sv_tasks c !! i = Some p →
  (p' = PClear ∨ p' = PDone →
   ∀ e0, file_Extent o !! i = Some e0 → ext_dirty e0 = true →
         is_Some (objects (sv_bucket c) !! CurrentKey sess e0)) →
  p' ≠ PStart →
  persist_inv sess o c → persist_inv sess o (set_task i p' b' c).
Proof.
  intros Hobjs Hp Hnew Hns [Hc Hpr Hst]. split; cbn; rewrite ?Hobjs.
  - done.
  - intros i1 e0 p1 He0 Hd0. destruct (decide (i = i1)) as [<- | Hne].
    + rewrite lookup_insert_eq. intros [= <-] Hp'. by eapply Hnew.
    + rewrite lookup_insert_ne by done. by eapply Hpr.
  - intros i1 e0 e He0. destruct (decide (i = i1)) as [<- | Hne].
    + rewrite lookup_insert_eq. congruence.
    + rewrite lookup_insert_ne by done. by eapply Hst.
Qed.

Lemma persist_inv_step a c c' :
  Save_inv sess o c → persist_inv sess o c → Step sess a c c' →
  persist_inv sess o c'.
Proof.
  intros Hsave Hpi Hstep.
  destruct Hstep as [i e c Hp He Hd | i e c Hp He Hd Hk | i e c Hp He Hd Hk
                    | i key e err' c Hp He Hf | i key e c Hp He Hf
                    | i e c Hp He | i err' c Hr Hp | c merr Hr Hall Hm
                    | c result r b' Hr Hall Hm Hu].
  - (* a clean extent that has not started was clean when Save began *)
    eapply persist_inv_set_task; try done.
    intros _ e0 He0 Hd0.
    rewrite (pi_start _ _ _ Hpi i e0 e He0 Hp He) in Hd. congruence.
  - (* a dedup hit: the address is present *)
    eapply persist_inv_set_task; try done.
    intros _ e0 He0 Hd0.
    destruct (Save_inv_origin sess o c i e Hsave He) as (e0' & He0' & Hb & _).
    simplify_eq. unfold CurrentKey in *. by rewrite Hb.
  - eapply persist_inv_set_task; try done. by intros [? | ?].
  - eapply persist_inv_set_task; try done. by intros [? | ?].
  - (* the upload writes the body under its address *)
    destruct (Save_inv_upload_origin sess o c i key Hsave Hp) as (e0 & He0 & Hd0 & ->).
    destruct (Save_inv_origin sess o c i e Hsave He) as (e0' & He0' & Hb & _).
    simplify_eq. destruct Hpi as [Hc Hpr Hst]. split; cbn.
    + intros i1 e1 He1 Hd1.
      destruct (decide (CurrentKey sess e0 = CurrentKey sess e1)) as [Heq | Hne].
      * right. rewrite <- Heq, lookup_insert_eq, <- Hb.
        by rewrite (Hcollision i i1 e0 e1 He0 He1 Hd0 Hd1 Heq).
      * rewrite lookup_insert_ne by done. by eapply Hc.
    + intros i1 e1 p1 He1 Hd1. destruct (decide (i = i1)) as [<- | Hne].
      * rewrite lookup_insert_eq. intros _ _. simplify_eq.
        by rewrite lookup_insert_eq.
      * rewrite lookup_insert_ne by done. intros Hp1 Hp'.
        apply lookup_insert_is_Some'. right. by eapply Hpr.
    + intros i1 e1 e' He1. destruct (decide (i = i1)) as [<- | Hne].
      * rewrite lookup_insert_eq. congruence.
      * rewrite lookup_insert_ne by done. by eapply Hst.
  - (* the flag is cleared: the body was uploaded *)
    destruct Hpi as [Hc Hpr Hst]. split; cbn.
    + done.
    + intros i1 e1 p1 He1 Hd1. destruct (decide (i = i1)) as [<- | Hne].
      * rewrite lookup_insert_eq. intros _ _. eapply Hpr; try done. by left.
      * rewrite lookup_insert_ne by done. by eapply Hpr.
    + intros i1 e1 e' He1. destruct (decide (i = i1)) as [<- | Hne].
      * rewrite lookup_insert_eq. congruence.
      * rewrite !lookup_insert_ne by done. by eapply Hst.
  - destruct Hpi as [Hc Hpr Hst]. split; cbn.
    + done.
    + intros i1 e1 p1 He1 Hd1. destruct (decide (i = i1)) as [<- | Hne].
      * rewrite lookup_insert_eq. by intros [= <-] [? | ?].
      * rewrite lookup_insert_ne by done. by eapply Hpr.
    + intros i1 e1 e' He1. destruct (decide (i = i1)) as [<- | Hne].
      * rewrite lookup_insert_eq. congruence.
      * rewrite lookup_insert_ne by done. by eapply Hst.
  - destruct Hpi as [Hc Hpr Hst]. by split.
  - (* the record is written under the file's key only when that key is free,
       and then it is not the address of a dirty extent: those are present *)
    destruct (UploadWithCache_objects _ _ _ _ _ _ Hu) as [_ Hobjs].
    destruct Hpi as [Hc Hpr Hst].
    assert (∀ i e0, file_Extent o !! i = Some e0 → ext_dirty e0 = true →
              objects b' !! CurrentKey sess e0
              = objects (sv_bucket c) !! CurrentKey sess e0) as Hsame.
    { intros i e0 He0 Hd0.
      destruct (Hobjs (CurrentKey sess e0)) as [-> | (Hfk & Hnone & _)]; [done |].
      exfalso.
      assert (is_Some (sv_tasks c !! i)) as [p Hp].
      { apply elem_of_dom. rewrite (inv_dom _ _ _ Hsave).
        rewrite <- (dom_fmap_L ext_Key (file_Extent (sv_file c))).
        rewrite (inv_keys _ _ _ Hsave), dom_fmap_L. apply elem_of_dom. eauto. }
      destruct (Hpr i e0 p He0 Hd0 Hp) as [x Hx]; [right; by apply (Hall i p) |].
      rewrite Hfk in Hx. congruence. }
    split; cbn.
    + intros i e0 He0 Hd0. rewrite (Hsame i e0 He0 Hd0). by eapply Hc.
    + intros i e0 p He0 Hd0 Hp Hp'. rewrite (Hsame i e0 He0 Hd0). by eapply Hpr.
    + done.
Qed.

Lemma persist_inv_Save sched : persist_inv sess o (File_Save sess sched o b).
Proof.
  apply (run_invariant sess (λ c, Save_inv sess o c ∧ persist_inv sess o c)).
  - intros a c1 c2 [H1 H2] Hstep. split.
    + by eapply Save_inv_step.
    + by eapply persist_inv_step.
  - split; [apply Save_inv_begin | apply persist_inv_begin].
Qed.

Lemma Save_nil_stored sched i e :
  sv_result (File_Save sess sched o b) = Some None →
  file_Extent o !! i = Some e → ext_dirty e = true →
  objects (sv_bucket (File_Save sess sched o b)) !! CurrentKey sess e
  = Some (Raw (ext_body e)).
Proof.
  intros Hr He Hd.
  pose proof (persist_inv_Save sched) as Hpi.
  pose proof (Save_inv_Save sess o sched b) as Hsave.
  destruct (Save_nil_all_done sess sched o b Hr) as [Hall _].
  assert (is_Some (sv_tasks (File_Save sess sched o b) !! i)) as [p Hp].
  { apply elem_of_dom. rewrite (inv_dom _ _ _ Hsave).
    rewrite <- (dom_fmap_L ext_Key (file_Extent (sv_file _))).
    rewrite (inv_keys _ _ _ Hsave), dom_fmap_L. apply elem_of_dom. eauto. }
  destruct (pi_present _ _ _ Hpi i e p He Hd Hp) as [x Hx];
    [right; by apply (Hall i p) |].
  destruct (pi_content _ _ _ Hpi i e He Hd) as [Hnone | Hsome]; [congruence | done].
Qed.
End Save_persists.

(** X10: a Save that returns nil has stored the body of every dirty extent
    under its content address, provided that what the bucket held under
    those addresses when Save began was that content or nothing, and that no
    two dirty extents of the file with different bodies share an address. *)
Theorem Save_persists_bodies (sess : Session) (sched : list Action) (o : File)
    (b : Bucket) (i : Z) (e : Extent) :
  (∀ i e, file_Extent o !! i = Some e → ext_dirty e = true →
     objects b !! CurrentKey sess e = None
     ∨ objects b !! CurrentKey sess e = Some (Raw (ext_body e))) →
  (∀ i1 i2 e1 e2, file_Extent o !! i1 = Some e1 → file_Extent o !! i2 = Some e2 →
     ext_dirty e1 = true → ext_dirty e2 = true →
     CurrentKey sess e1 = CurrentKey sess e2 → ext_body e1 = ext_body e2) →
  sv_result (File_Save sess sched o b) = Some None →
  file_Extent o !! i = Some e → ext_dirty e = true →
  objects (sv_bucket (File_Save sess sched o b)) !! CurrentKey sess e
  = Some (Raw (ext_body e)).
Proof. intros Hcontent Hcollision. by apply Save_nil_stored. Qed.

Lemma Save_persists_bodies_witness :
  objects (sv_bucket (File_Save plain_session sched_one file_one empty_bucket))
    !! CurrentKey plain_session (mkExtent "stale" body10 true)
  = Some (Raw body10).
Proof.
  apply (Save_persists_bodies plain_session sched_one file_one empty_bucket 0
           (mkExtent "stale" body10 true)).
  - intros i e He _. by left.
  - intros i1 i2 e1 e2 H1 H2 _ _ _.
    apply file_one_lookup in H1 as [_ ->]. by apply file_one_lookup in H2 as [_ ->].
  - reflexivity.
  - reflexivity.
  - reflexivity.
Defined.



(** ** No more than one upload per extent *)

Lemma fold_weight_insert (w : pc → nat) (tasks : gmap Z pc) i p p' :
  tasks !! i = Some p →
  (map_fold (λ _ p n, w p + n) 0 (<[i:=p']> tasks) + w p
   = map_fold (λ _ p n, w p + n) 0 tasks + w p')%nat.
Proof.
  intros Hi. rewrite <- insert_delete_eq.
  rewrite map_fold_insert_L; [| intros; lia | apply lookup_delete_eq].
  rewrite (map_fold_delete_L _ _ i p tasks); [lia | intros; lia | done].
Qed.

Lemma uploads_pending_begin (o : File) (b : Bucket) :
  uploads_pending (Save_begin o b) = size (file_Extent o).
Proof.
  unfold uploads_pending, Save_begin. cbn.
  induction (file_Extent o) as [| i e m Hi Hfold IH] using map_first_key_ind.
  - by rewrite fmap_empty, map_fold_empty, map_size_empty.
  - rewrite fmap_insert, map_size_insert_None by done.
    rewrite map_fold_insert_L.
    + rewrite IH. cbn. lia.
    + intros. lia.
    + by rewrite lookup_fmap, Hi.
Qed.

Lemma upload_calls_snoc t r :
  upload_calls (t ++ [r]) = (upload_calls t + if is_upload r then 1 else 0)%nat.
Proof.
  unfold upload_calls. rewrite filter_app, length_app. f_equal.
  destruct r; cbn; by rewrite ?filter_cons_True, ?filter_cons_False by done.
Qed.

Lemma upload_budget_step (sess : Session) a c c' :
  Step sess a c c' →
  (upload_calls (trace (sv_bucket c')) + uploads_pending c'
   ≤ upload_calls (trace (sv_bucket c)) + uploads_pending c)%nat.
Proof.
  unfold uploads_pending.
  destruct 1 as [i e c Hp He Hd | i e c Hp He Hd Hk | i e c Hp He Hd Hk
                | i key e err c Hp He Hf | i key e c Hp He Hf
                | i e c Hp He | i err c Hr Hp | c merr Hr Hall Hm
                | c result r b Hr Hall Hm Hu];
    cbn -[upload_calls];
    rewrite ?upload_calls_snoc; cbn -[upload_calls];
    try (match goal with
         | |- context [<[i:=?p']> (sv_tasks c)] =>
             pose proof (fold_weight_insert may_upload (sv_tasks c) i _ p' Hp) as Hw
         end; cbn in Hw; lia).
  { lia. }
  destruct (UploadWithCache_objects _ _ _ _ _ _ Hu) as [-> _].
  rewrite upload_calls_snoc. cbn -[upload_calls]. lia.
Qed.

(** X12: Save makes at most one Upload call per extent of the file, along
    any schedule. *)
Theorem Save_upload_bound (sess : Session) (sched : list Action) (o : File) (b : Bucket) :
  (upload_calls (trace (sv_bucket (File_Save sess sched o b)))
   ≤ upload_calls (trace b) + size (file_Extent o))%nat.
Proof.
  assert (upload_calls (trace (sv_bucket (File_Save sess sched o b)))
          + uploads_pending (File_Save sess sched o b)
          ≤ upload_calls (trace b) + size (file_Extent o))%nat as H; [| lia].
  apply (run_invariant sess
           (λ c, (upload_calls (trace (sv_bucket c)) + uploads_pending c
                  ≤ upload_calls (trace b) + size (file_Extent o))%nat)).
  - intros a c1 c2 H1 Hstep. apply upload_budget_step in Hstep. lia.
  - rewrite uploads_pending_begin. cbn. lia.
Qed.

(** ** Fill and the store *)

(** X13: Fill never writes to the store and never touches the dirty flag.
    Either it makes no store call, returns nil and leaves the extent as it
    is; or the extent was clean with an empty body and Fill makes exactly
    one call, a Download of the extent's own key. *)
Theorem Fill_effects (sess : Session) (e : Extent) (b : Bucket) :
  objects (Fill sess e b).2 = objects b
  ∧ ext_dirty (Fill sess e b).1.2 = ext_dirty e
  ∧ (Fill sess e b = (None, e, b)
     ∨ (ext_dirty e = false ∧ ext_body e = []
        ∧ trace (Fill sess e b).2 = trace b ++ [CallDownload (ext_Key e)])).
Proof.
  split_and!; [apply Fill_objects | apply Fill_dirty_flag |].
  destruct (ext_dirty e) eqn:Hd; [left; apply Fill_filled; by left |].
  destruct (ext_body e) as [| x l] eqn:Hb.
  - right. split_and!; try done.
    rewrite (Fill_empty_clean sess e b Hd Hb).
    pose proof (Download_trace sess (ext_Key e) b) as Ht.
    by destruct (Download sess (ext_Key e) b) as [[err | x] b'].
  - left. apply Fill_filled. right. by rewrite Hb.
Qed.

(** X14: Fill keeps the Extent invariant (a clean extent with a loaded body
    holds the content its key addresses) whenever the object stored under
    the extent's key is content with that address. *)
Theorem Fill_keeps_ext_inv (sess : Session) (e : Extent) (b : Bucket) :
  (∀ x, objects b !! ext_Key e = Some x → KeyGen sess (object_bytes x) = ext_Key e) →
  ext_inv sess e → ext_inv sess (Fill sess e b).1.2.
Proof. apply Fill_ext_inv. Qed.

Lemma Fill_keeps_ext_inv_witness :
  ext_inv plain_session
    (Fill plain_session (mkExtent (String.string_of_list_byte body10) [] false)
       bucket_with_body).1.2.
Proof.
  apply (Fill_keeps_ext_inv plain_session
           (mkExtent (String.string_of_list_byte body10) [] false) bucket_with_body).
  - intros x Hx. vm_compute in Hx. by injection Hx as <-.
  - intros _ Hne. by destruct Hne.
Defined.

(** ** Which flags Save clears *)

Lemma flag_inv_begin (o : File) (b : Bucket) : flag_inv o (Save_begin o b).
Proof. intros i p e0 e He0 _ He _. cbn in He. congruence. Qed.

Lemma flag_inv_step (sess : Session) (o : File) a c c' :
  flag_inv o c → Step sess a c c' → flag_inv o c'.
Proof.
  intros Hfl Hstep.
  destruct Hstep as [i e c Hp He Hd | i e c Hp He Hd Hk | i e c Hp He Hd Hk
                    | i key e err' c Hp He Hf | i key e c Hp He Hf
                    | i e c Hp He | i err' c Hr Hp | c merr Hr Hall Hm
                    | c result r b' Hr Hall Hm Hu];
    intros i1 p1 e0 e1 He0; cbn; try by apply Hfl.
  all: destruct (decide (i = i1)) as [<- | Hne];
    [rewrite ?lookup_insert_eq | rewrite ?lookup_insert_ne by done; by apply Hfl].
  all: intros [= <-] He1 Hnd; by eapply (Hfl i).
Qed.

Lemma flag_inv_Save (sess : Session) (sched : list Action) (o : File) (b : Bucket) :
  flag_inv o (File_Save sess sched o b).
Proof.
  apply (run_invariant sess (flag_inv o)).
  - intros a c1 c2. apply flag_inv_step.
  - apply flag_inv_begin.
Qed.

(** X17: an extent whose upload failed is left exactly as it was.  Along
    every schedule, the extent of a task that is sending its error, or whose
    error Save has received, is the extent from when Save began: same key,
    same body, still dirty. *)
Theorem Save_failed_extent_untouched (sess : Session) (sched : list Action)
    (o : File) (b : Bucket) (i : Z) (p : pc) :
  let c := File_Save sess sched o b in
  sv_tasks c !! i = Some p →
  (p = PGone ∨ ∃ err, p = PSend err) →
  file_Extent (sv_file c) !! i = file_Extent o !! i.
Proof.
  intros c Hp Hfailed.
  pose proof (Save_inv_Save sess o sched b) as Hsave. fold c in Hsave.
  assert (is_Some (file_Extent (sv_file c) !! i)) as [e He].
  { apply elem_of_dom. rewrite <- (inv_dom _ _ _ Hsave). apply elem_of_dom. eauto. }
  destruct (Save_inv_origin sess o c i e Hsave He) as (e0 & He0 & Hb & Hk & _).
  rewrite He, He0. f_equal.
  assert (ext_dirty e = ext_dirty e0) as Hd.
  { apply (flag_inv_Save sess sched o b i p e0 e He0 Hp He).
    destruct Hfailed as [-> | [err ->]]; done. }
  destruct e, e0. cbn in *. congruence.
Qed.

Lemma Save_failed_extent_untouched_witness :
  file_Extent (sv_file (File_Save faulty_session sched_fail_first file_two empty_bucket))
    !! 0
  = file_Extent file_two !! 0.
Proof.
  apply (Save_failed_extent_untouched faulty_session sched_fail_first file_two
           empty_bucket 0 PGone).
  - reflexivity.
  - by left.
Defined.

(** X18: Save clears the flag of a dirty extent only once its body is
    stored.  Provided that what the bucket held under the content addresses
    of the dirty extents when Save began was that content or nothing, and
    that no two dirty extents with different bodies share an address: along
    every schedule, also of a Save that fails, an extent that was dirty and
    is now clean has its body in the bucket under its content address. *)
Theorem Save_clean_means_stored (sess : Session) (sched : list Action) (o : File)
    (b : Bucket) (i : Z) (e0 e : Extent) :
  let c := File_Save sess sched o b in
  (∀ i e, file_Extent o !! i = Some e → ext_dirty e = true →
     objects b !! CurrentKey sess e = None
     ∨ objects b !! CurrentKey sess e = Some (Raw (ext_body e))) →
  (∀ i1 i2 e1 e2, file_Extent o !! i1 = Some e1 → file_Extent o !! i2 = Some e2 →
     ext_dirty e1 = true → ext_dirty e2 = true →
     CurrentKey sess e1 = CurrentKey sess e2 → ext_body e1 = ext_body e2) →
  file_Extent o !! i = Some e0 → ext_dirty e0 = true →
  file_Extent (sv_file c) !! i = Some e → ext_dirty e = false →
  objects (sv_bucket c) !! CurrentKey sess e0 = Some (Raw (ext_body e0)).
Proof.
  intros c Hcontent Hcollision He0 Hd0 He Hd.
  pose proof (Save_inv_Save sess o sched b) as Hsave.
  pose proof (persist_inv_Save sess o b Hcontent Hcollision sched) as Hpi.
  fold c in Hsave, Hpi.
  assert (is_Some (sv_tasks c !! i)) as [p Hp].
  { apply elem_of_dom. rewrite (inv_dom _ _ _ Hsave). apply elem_of_dom. eauto. }
  assert (p = PDone) as ->.
  { destruct (decide (p = PDone)) as [-> | Hnd]; [done |].
    pose proof (flag_inv_Save sess sched o b i p e0 e He0 Hp He Hnd). congruence. }
  destruct (pi_present _ _ _ Hpi i e0 PDone He0 Hd0 Hp) as [x Hx]; [by right |].
  destruct (pi_content _ _ _ Hpi i e0 He0 Hd0) as [Hnone | Hsome]; [congruence | done].
Qed.

Lemma Save_clean_means_stored_witness :
  objects (sv_bucket (File_Save plain_session [Run 0; Run 0; Run 0] file_one empty_bucket))
    !! CurrentKey plain_session (mkExtent "stale" body10 true)
  = Some (Raw body10).
Proof.
  apply (Save_clean_means_stored plain_session [Run 0; Run 0; Run 0] file_one
           empty_bucket 0 (mkExtent "stale" body10 true)
           (mkExtent "stale" body10 false)).
  - intros i e He _. by left.
  - intros i1 i2 e1 e2 H1 H2 _ _ _.
    apply file_one_lookup in H1 as [_ ->]. by apply file_one_lookup in H2 as [_ ->].
  - reflexivity.
  - reflexivity.
  - reflexivity.
  - reflexivity.
Defined.

Lemma Save_file_frame_witness :
  file_Extent (sv_file (File_Save plain_session [Run 0; Finish] file_clean empty_bucket))
    !! 0 = Some (mkExtent "k0" body10 false)
  ∧ ext_dirty (mkExtent "k0" body10 false) = false.
Proof.
  destruct (Save_file_frame plain_session [Run 0; Finish] file_clean empty_bucket)
    as (_ & _ & _ & _ & _ & Hclean).
  split; [reflexivity |].
  apply (Hclean 0 (mkExtent "k0" body10 false) (mkExtent "k0" body10 false));
    reflexivity.
Defined.
